(** * search_views.py: text placed directly inside <View> components

    A shallow embedding of [src/search_views.py] and the properties of its
    detection heuristic.

    - A Python [str] is a sequence of Unicode code points: [list char] with
      [char := N].  String literals of the script are written [str "..."].
    - The three regular expressions the script runs ([view_pattern], the two
      [re.sub] patterns and the [re.search] pattern) are sequences of
      literals, character classes and greedy or lazy repetitions of a
      character class.  [Re.match_items] is a backtracking matcher for that
      fragment with the priorities of Python's [re]; [Re.tokens] is the
      left-to-right scan shared by [finditer] and [sub].
    - [find_text_in_views] threads the mutable [issues] list, the text printed
      to the standard output and the files opened through a [state] record;
      a [print] can raise, and [result] tells whether a piece of the script
      ended normally or with the exception on its way out.

    [text_pattern] is compiled by the script and never used; it is left out. *)

From Stdlib Require Import String Ascii DecimalString.
From Stdlib Require Import List Arith NArith Lia Bool Sorted.
Import ListNotations.

Set Implicit Arguments.

(* ------------------------------------------------------------------ *)
(** ** Python strings *)

Module Py.

Definition char := N.
Definition pystr := list char.

(** A literal of the script, as code points. *)
Definition str (s : String.string) : pystr :=
  map N_of_ascii (String.list_ascii_of_string s).

Definition nl : char := 10%N.

(** [a.startswith(b)] with [startswith l s] reading "[s] starts with [l]". *)
Fixpoint startswith (l s : pystr) : bool :=
  match l, s with
  | [], _ => true
  | _ :: _, [] => false
  | a :: l', b :: s' => N.eqb a b && startswith l' s'
  end.

(** [s.endswith(l)] *)
Definition endswith (l s : pystr) : bool :=
  startswith (rev l) (rev s).

(** [l in s] for strings: [l] occurs in [s] as a contiguous substring. *)
Fixpoint contains (l s : pystr) : bool :=
  startswith l s ||
  match s with
  | [] => false
  | _ :: s' => contains l s'
  end.

(** The characters [str.strip()] removes: CPython's [_PyUnicode_IsWhitespace]
    (bidirectional type WS, B or S, or category Zs). *)
Definition isspace (c : char) : bool :=
  ((9 <=? c) && (c <=? 13) || (28 <=? c) && (c <=? 32)
   || (c =? 133) || (c =? 160) || (c =? 5760)
   || (8192 <=? c) && (c <=? 8202)
   || (c =? 8232) || (c =? 8233) || (c =? 8239) || (c =? 8287)
   || (c =? 12288))%N.

Fixpoint lstrip (s : pystr) : pystr :=
  match s with
  | [] => []
  | c :: t => if isspace c then lstrip t else s
  end.

Definition rstrip (s : pystr) : pystr := rev (lstrip (rev s)).

(** [s.strip()] *)
Definition strip (s : pystr) : pystr := rstrip (lstrip s).

(** [s.count('\n')] and friends *)
Definition count (c : char) (s : pystr) : nat :=
  length (filter (N.eqb c) s).

(** [os.path.join(a, b)] of [posixpath] for two components. *)
Definition path_join (a b : pystr) : pystr :=
  if startswith (str "/") b then b
  else if (match a with [] => true | _ => false end) || endswith (str "/") a
       then a ++ b
       else a ++ str "/" ++ b.

End Py.
Import Py.

(* ------------------------------------------------------------------ *)
(** ** The fragment of [re] the script uses *)

Module Re.

(** One element of a pattern. *)
Inductive item : Type :=
| Lit (l : pystr)               (* a literal run of characters *)
| Cls (p : char -> bool)        (* one character of a class: [[...]] *)
| Greedy (p : char -> bool)     (* [[...]*] *)
| Lazy (p : char -> bool).      (* [[...]*?] *)

(** Prepend a character to the piece matched by the repetition in progress. *)
Definition push (c : char) (ps : list pystr) : list pystr :=
  match ps with
  | piece :: rest => (c :: piece) :: rest
  | [] => [[c]]
  end.

(** [match_items its s]: match the pattern [its] at the start of [s] by
    backtracking.  The result lists, item by item, the text each item
    consumed; [None] when no way of matching exists.  A greedy repetition
    tries the longest run first and gives characters back one at a time; a
    lazy one tries the rest of the pattern first and takes one more
    character each time that fails. *)
Fixpoint match_items (its : list item) : pystr -> option (list pystr) :=
  match its with
  | [] => fun _ => Some []
  | Lit l :: rest => fun s =>
      if startswith l s
      then option_map (cons l) (match_items rest (skipn (length l) s))
      else None
  | Cls p :: rest => fun s =>
      match s with
      | c :: t => if p c then option_map (cons [c]) (match_items rest t)
                  else None
      | [] => None
      end
  | Greedy p :: rest =>
      fix go (s : pystr) : option (list pystr) :=
        let stop := option_map (cons []) (match_items rest s) in
        match s with
        | c :: t =>
            if p c
            then match go t with
                 | Some ps => Some (push c ps)
                 | None => stop
                 end
            else stop
        | [] => stop
        end
  | Lazy p :: rest =>
      fix go (s : pystr) : option (list pystr) :=
        match match_items rest s with
        | Some ps => Some ([] :: ps)
        | None =>
            match s with
            | c :: t => if p c then option_map (push c) (go t) else None
            | [] => None
            end
        end
  end.

(** A match object: [m.start()] and the text of each item. *)
Record Match : Type := mkMatch {
  m_start : nat;
  m_pieces : list pystr
}.

(** [m.group(0)] *)
Definition group0 (m : Match) : pystr := concat (m_pieces m).

(** [m.end()] *)
Definition m_end (m : Match) : nat := m_start m + length (group0 m).

(** The text of the [i]-th item: the capture of a group around one item. *)
Definition piece (i : nat) (m : Match) : pystr := nth i (m_pieces m) [].

(** What a left-to-right scan sees: a character outside every match, or a
    match. *)
Inductive token : Type :=
| Keep (c : char)
| Hit (m : Match).

(** The scan behind [finditer] and [sub]: at offset [pos], with [skip]
    characters of the previous match still to pass, try the pattern; on a
    match report it and resume at its end, otherwise move one character on.
    No pattern of the script matches the empty string
    ([view_match_nonempty], [brace_match_nonempty], [tag_match_nonempty]), so
    a zero-width result is passed over like a failure. *)
Fixpoint tokens (its : list item) (pos skip : nat) (s : pystr) : list token :=
  match s with
  | [] => []
  | c :: t =>
      match skip with
      | S k => tokens its (S pos) k t
      | O =>
          match match_items its s with
          | Some ps =>
              match length (concat ps) with
              | S k => Hit (mkMatch pos ps) :: tokens its (S pos) k t
              | O => Keep c :: tokens its (S pos) 0 t
              end
          | None => Keep c :: tokens its (S pos) 0 t
          end
      end
  end.

Fixpoint hits (ts : list token) : list Match :=
  match ts with
  | [] => []
  | Keep _ :: r => hits r
  | Hit m :: r => m :: hits r
  end.

Fixpoint kept (ts : list token) : pystr :=
  match ts with
  | [] => []
  | Keep c :: r => c :: kept r
  | Hit _ :: r => kept r
  end.

(** [pattern.finditer(s)] *)
Definition finditer (its : list item) (s : pystr) : list Match :=
  hits (tokens its 0 0 s).

(** [re.sub(pattern, '', s)] *)
Definition sub_empty (its : list item) (s : pystr) : pystr :=
  kept (tokens its 0 0 s).

(** [re.search(pattern, s)] as a truth value: the pattern matches at some
    offset. *)
Fixpoint search (its : list item) (s : pystr) : bool :=
  match match_items its s with
  | Some _ => true
  | None =>
      match s with
      | [] => false
      | _ :: t => search its t
      end
  end.

End Re.
Import Re.

(* ------------------------------------------------------------------ *)
(** ** The script *)

Module Script.

(** [[^>]] *)
Definition not_gt (c : char) : bool := negb (c =? 62)%N.

(** [[^}]] *)
Definition not_rbrace (c : char) : bool := negb (c =? 125)%N.

(** [.] under [re.DOTALL] *)
Definition any (_ : char) : bool := true.

(** [[a-zA-Z0-9]] *)
Definition alnum (c : char) : bool :=
  ((97 <=? c) && (c <=? 122) || (65 <=? c) && (c <=? 90)
   || (48 <=? c) && (c <=? 57))%N.

Definition open_tag : pystr := str "<View".
Definition close_tag : pystr := str "</View>".

(** [re.compile(r'<View[^>]*>(.*?)</View>', re.DOTALL)]; group 1 is the
    fourth item. *)
Definition view_pattern : list item :=
  [Lit open_tag; Greedy not_gt; Lit (str ">"); Lazy any; Lit close_tag].

(** [match.group(1)] of a [view_pattern] match *)
Definition group1 (m : Match) : pystr := piece 3 m.

(** [r'\{[^}]*\}'] *)
Definition brace_pattern : list item :=
  [Lit (str "{"); Greedy not_rbrace; Lit (str "}")].

(** [r'<[^>]*>'] *)
Definition tag_pattern : list item :=
  [Lit (str "<"); Greedy not_gt; Lit (str ">")].

(** [r'[a-zA-Z0-9]+'] *)
Definition alnum_pattern : list item := [Cls alnum; Greedy alnum].

(** The dictionaries appended to [issues]. *)
Record Issue : Type := mkIssue {
  file : pystr;
  line : nat;
  content : pystr
}.

(** Truth value of a string: non-empty. *)
Definition truthy (s : pystr) : bool :=
  match s with
  | [] => false
  | _ :: _ => true
  end.

(** [match.group(1).strip()] *)
Definition view_content (m : Match) : pystr := strip (group1 m).

(** The three assignments to [cleaned]. *)
Definition cleaned (vc : pystr) : pystr :=
  let cleaned := sub_empty brace_pattern vc in
  let cleaned := sub_empty tag_pattern cleaned in
  strip cleaned.

(** [content[:match.start()].count('\n') + 1] *)
Definition line_num (content : pystr) (m : Match) : nat :=
  count nl (firstn (m_start m) content) + 1.

(** [match.group(0)[:100] + '...' if len(match.group(0)) > 100
     else match.group(0)] *)
Definition snippet (m : Match) : pystr :=
  if 100 <? length (group0 m)
  then firstn 100 (group0 m) ++ str "..."
  else group0 m.

(** The body of [for match in view_pattern.finditer(content)], on the
    [issues] list. *)
Definition process_match (filepath content : pystr)
    (issues : list Issue) (m : Match) : list Issue :=
  let vc := view_content m in
  if negb (truthy vc) then issues
  else
    let cl := cleaned vc in
    if truthy cl && search alnum_pattern cl
    then issues ++ [mkIssue filepath (line_num content m) (snippet m)]
    else issues.

(** The [for match ...] loop over one file's content. *)
Definition scan_content (filepath content : pystr)
    (issues : list Issue) : list Issue :=
  fold_left (process_match filepath content)
            (finditer view_pattern content) issues.

(** What [open(filepath, 'r', encoding='utf-8')] followed by [f.read()]
    gives: the decoded content, or an exception with its message. *)
Inductive read_result : Type :=
| ReadOk (content : pystr)
| ReadFail (e : pystr).

Definition filesystem : Type := pystr -> read_result.

(** The [issues] list, the lines printed, and the paths handed to [open]. *)
Record state : Type := mkState {
  issues : list Issue;
  stdout : list pystr;
  opened : list pystr
}.

Definition init : state := mkState [] [] [].

(** [f"Error reading {filepath}: {e}"] *)
Definition error_line (filepath e : pystr) : pystr :=
  str "Error reading " ++ filepath ++ str ": " ++ e.

(** Whether a [print] succeeds, given what has been printed so far and the
    text to print.  It fails when the standard output cannot take the text:
    its encoding cannot encode it ([UnicodeEncodeError], as for a path with
    a lone surrogate under a strict encoding), or the stream itself fails.
    Nothing in the script catches that exception. *)
Definition console : Type := list pystr -> pystr -> bool.

(** How a piece of the script ends: normally, or with an exception on its
    way out; either way with the state reached. *)
Inductive result (A : Type) : Type :=
| Done (a : A)
| Raised (a : A).

Arguments Done {A} a.
Arguments Raised {A} a.

(** [print(text)] on the output [out] *)
Definition print (con : console) (text : pystr) (out : list pystr)
    : result (list pystr) :=
  if con out text then Done (out ++ [text]) else Raised out.

(** The [try] ... [except Exception] block for one file.  A failure of
    [open] or [read] is caught and reported with [print]; an exception of
    that [print] is raised inside the handler and leaves the block. *)
Definition scan_file (con : console) (fs : filesystem) (filepath : pystr)
    (st : state) : result state :=
  match fs filepath with
  | ReadOk content =>
      Done (mkState (scan_content filepath content (issues st))
                    (stdout st)
                    (opened st ++ [filepath]))
  | ReadFail e =>
      match print con (error_line filepath e) (stdout st) with
      | Done out => Done (mkState (issues st) out (opened st ++ [filepath]))
      | Raised out =>
          Raised (mkState (issues st) out (opened st ++ [filepath]))
      end
  end.

(** A [for] loop whose body may raise: the exception ends the loop. *)
Fixpoint for_each (A : Type) (body : state -> A -> result state)
    (l : list A) (st : state) : result state :=
  match l with
  | [] => Done st
  | x :: r =>
      match body st x with
      | Done st' => for_each body r st'
      | Raised st' => Raised st'
      end
  end.

(** [file.endswith(('.tsx', '.jsx', '.ts', '.js'))] *)
Definition has_ext (file : pystr) : bool :=
  endswith (str ".tsx") file || endswith (str ".jsx") file
  || endswith (str ".ts") file || endswith (str ".js") file.

(** ['node_modules' in root or '.git' in root or 'build' in root] *)
Definition excluded (root : pystr) : bool :=
  contains (str "node_modules") root || contains (str ".git") root
  || contains (str "build") root.

(** One triple yielded by [os.walk]. *)
Definition entry : Type := (pystr * list pystr * list pystr)%type.

(** The body of [for file in files]. *)
Definition visit_file (con : console) (fs : filesystem) (root : pystr)
    (st : state) (file : pystr) : result state :=
  if has_ext file then scan_file con fs (path_join root file) st
  else Done st.

(** The body of [for root, dirs, files in os.walk(directory)]. *)
Definition visit_dir (con : console) (fs : filesystem) (st : state)
    (e : entry) : result state :=
  let '(root, _, files) := e in
  if excluded root then Done st
  else for_each (visit_file con fs root) files st.

(** The whole loop, on the sequence [walk] that [os.walk(directory)]
    yields. *)
Definition run (con : console) (fs : filesystem) (walk : list entry)
    : result state :=
  for_each (visit_dir con fs) walk init.

(** [find_text_in_views(directory)]: the list returned, or [None] when an
    exception leaves the function. *)
Definition find_text_in_views (con : console) (fs : filesystem)
    (walk : list entry) : option (list Issue) :=
  match run con fs walk with
  | Done st => Some (issues st)
  | Raised _ => None
  end.

(** [str(n)] for the two integers the script formats: decimal digits. *)
Definition str_of_int (n : nat) : pystr :=
  str (NilEmpty.string_of_uint (Nat.to_uint n)).

(** ["-" * 80] *)
Definition divider : pystr := repeat 45%N 80.

(** The four [print] calls of [for issue in issues]. *)
Definition report_issue (i : Issue) : list pystr :=
  [str "File: " ++ file i;
   str "Line: " ++ str_of_int (line i);
   str "Content: " ++ content i;
   divider].

(** The [if issues: ... else: ...] at the end of the script: the argument of
    each [print] call, in order.  The heading ends in a newline of its
    own. *)
Definition report (issues : list Issue) : list pystr :=
  if negb (match issues with [] => true | _ :: _ => false end)
  then (str "Found " ++ str_of_int (length issues)
          ++ str " potential issues where text is directly inside"
          ++ str " View components:"
          ++ [nl])
       :: flat_map report_issue issues
  else [str "No instances found where text is directly inside"
          ++ str " View components."].

(** [print] for each text in turn; the first one that raises ends the
    script. *)
Fixpoint print_all (con : console) (texts : list pystr) (out : list pystr)
    : result (list pystr) :=
  match texts with
  | [] => Done out
  | t :: r =>
      match print con t out with
      | Done out' => print_all con r out'
      | Raised out' => Raised out'
      end
  end.

(** The script from [issues = find_text_in_views(src_dir)] on: what has been
    printed when it ends, one element per [print] call, and whether it ends
    normally or with an exception. *)
Definition main (con : console) (fs : filesystem) (walk : list entry)
    : result (list pystr) :=
  match run con fs walk with
  | Done st => print_all con (report (issues st)) (stdout st)
  | Raised st => Raised (stdout st)
  end.

End Script.
Import Script.

(* ------------------------------------------------------------------ *)
(** ** Vocabulary of the properties *)

(** The text a token stands for. *)
Fixpoint rebuild (ts : list token) : pystr :=
  match ts with
  | [] => []
  | Keep c :: r => c :: rebuild r
  | Hit m :: r => group0 m ++ rebuild r
  end.

(** Matches listed from left to right, each starting at or after the end of
    the one before; [lo] bounds the first start from below. *)
Fixpoint ordered (lo : nat) (ms : list Match) : Prop :=
  match ms with
  | [] => True
  | m :: r => lo <= m_start m /\ ordered (m_end m) r
  end.

(** No closing tag starts inside [body]: in [body ++ close_tag] the closing
    tag at the end is the first one. *)
Definition closes_first (body : pystr) : Prop :=
  forall j, j < length body ->
            startswith close_tag (skipn j (body ++ close_tag)) = false.

(** The shape [a[^b]*b] shared by the two [re.sub] patterns. *)
Definition bracket_pattern (a b : char) (p : char -> bool) : list item :=
  [Lit [a]; Greedy p; Lit [b]].

(** An alphanumeric character is left after cleaning. *)
Definition suspicious (m : Match) : bool :=
  existsb alnum (cleaned (view_content m)).

(** The dictionary appended for a match. *)
Definition issue_of (filepath text : pystr) (m : Match) : Issue :=
  mkIssue filepath (line_num text m) (snippet m).

(** The paths the walk hands to [open], in order. *)
Definition selected (walk : list entry) : list pystr :=
  flat_map (fun e : entry =>
              let '(root, _, files) := e in
              if excluded root then []
              else map (path_join root) (filter has_ext files))
           walk.

(** What one file adds to [issues] and to the output. *)
Definition file_issues (fs : filesystem) (filepath : pystr) : list Issue :=
  match fs filepath with
  | ReadOk text => scan_content filepath text []
  | ReadFail _ => []
  end.

Definition file_output (fs : filesystem) (filepath : pystr) : list pystr :=
  match fs filepath with
  | ReadOk _ => []
  | ReadFail e => [error_line filepath e]
  end.

(** No [a] of [s] has a [b] anywhere after it: [s] holds no span that
    starts with [a] and ends with [b]. *)
Fixpoint unpaired (a b : char) (s : pystr) : Prop :=
  match s with
  | [] => True
  | c :: t => (c = a -> ~ In b t) /\ unpaired a b t
  end.

(** The state a piece of the script ends with. *)
Definition state_of (A : Type) (r : result A) : A :=
  match r with
  | Done a => a
  | Raised a => a
  end.

(** Sequencing: [k] runs only if [r] ended normally. *)
Definition and_then (A : Type) (r : result A) (k : A -> result A)
    : result A :=
  match r with
  | Done a => k a
  | Raised a => Raised a
  end.

(** The [try] block for each of the paths [l] in turn. *)
Definition scan_files (con : console) (fs : filesystem) (l : list pystr)
    (st : state) : result state :=
  for_each (fun st fp => scan_file con fs fp st) l st.

(** A console on which every [print] succeeds. *)
Definition console_ok : console := fun _ _ => true.

(** A UTF-8 console with strict error handling: it cannot encode the
    surrogate code points U+D800 to U+DFFF. *)
Definition console_strict : console :=
  fun _ text =>
    negb (existsb (fun c => (55296 <=? c) && (c <=? 57343))%N text).

(** The state after the files [l] have gone through the [try] block, every
    [print] succeeding. *)
Definition after_files (fs : filesystem) (st : state) (l : list pystr)
    : state :=
  mkState (issues st ++ flat_map (file_issues fs) l)
          (stdout st ++ flat_map (file_output fs) l)
          (opened st ++ l).

(* ------------------------------------------------------------------ *)
(** ** Facts about strings *)

Section StringFacts.

Lemma startswith_app (l t : pystr) : startswith l (l ++ t) = true.
Proof.
  induction l as [|a l IH]; simpl; [reflexivity|].
  now rewrite N.eqb_refl, IH.
Qed.

Lemma startswith_split (l s : pystr) :
  startswith l s = true -> s = l ++ skipn (length l) s.
Proof.
  revert s; induction l as [|a l IH]; intros [|b s]; simpl; try easy.
  intros H. apply andb_true_iff in H as [Hab Hl].
  apply N.eqb_eq in Hab. subst b. f_equal. now apply IH.
Qed.

Lemma startswith_iff (l s : pystr) :
  startswith l s = true <-> exists t, s = l ++ t.
Proof.
  split.
  - intros H. eexists. now apply startswith_split.
  - intros [t ->]. apply startswith_app.
Qed.

(** Only the first [length l] characters of [s] matter. *)
Lemma startswith_app_r (l s t : pystr) :
  length l <= length s -> startswith l (s ++ t) = startswith l s.
Proof.
  revert s; induction l as [|a l IH]; intros [|b s]; simpl; try easy; try lia.
  intros H. f_equal. apply IH. lia.
Qed.

Lemma skipn_app_exact (A : Type) (l t : list A) :
  skipn (length l) (l ++ t) = t.
Proof. induction l; simpl; auto. Qed.

Lemma contains_here (l s : pystr) :
  startswith l s = true -> contains l s = true.
Proof. intros H. destruct s; simpl; now rewrite H. Qed.

Lemma contains_iff (l s : pystr) :
  contains l s = true <-> exists pre post, s = pre ++ l ++ post.
Proof.
  split.
  - induction s as [|c s IH]; simpl; intros H.
    + apply orb_true_iff in H as [H|H]; [|discriminate].
      apply startswith_iff in H as [t ->]. now exists [], t.
    + apply orb_true_iff in H as [H|H].
      * apply startswith_iff in H as [t ->]. now exists [], t.
      * destruct (IH H) as (pre & post & ->). now exists (c :: pre), post.
  - intros (pre & post & ->).
    induction pre as [|c pre IH]; simpl.
    + apply contains_here, startswith_app.
    + rewrite IH. apply orb_true_r.
Qed.

Lemma lstrip_spaces (s : pystr) : forallb isspace s = true -> lstrip s = [].
Proof.
  induction s as [|c s IH]; simpl; [reflexivity|].
  intros H. apply andb_true_iff in H as [-> H]. auto.
Qed.

Lemma strip_spaces (s : pystr) : forallb isspace s = true -> strip s = [].
Proof.
  intros H. unfold strip. now rewrite lstrip_spaces.
Qed.

Lemma forallb_rev (A : Type) (f : A -> bool) (l : list A) :
  forallb f (rev l) = forallb f l.
Proof.
  induction l as [|a l IH]; simpl; [reflexivity|].
  rewrite forallb_app, IH. simpl. rewrite andb_true_r. apply andb_comm.
Qed.

(** [lstrip], [rstrip] and [strip] take whitespace off the ends and nothing
    else. *)
Lemma lstrip_decompose (s : pystr) :
  exists ws, forallb isspace ws = true /\ s = ws ++ lstrip s.
Proof.
  induction s as [|c s (ws & Hws & IH)]; simpl.
  - now exists [].
  - destruct (isspace c) eqn:E; [|now exists []].
    exists (c :: ws). simpl. rewrite E, Hws. split; [reflexivity|].
    now f_equal.
Qed.

Lemma rstrip_decompose (s : pystr) :
  exists ws, forallb isspace ws = true /\ s = rstrip s ++ ws.
Proof.
  destruct (lstrip_decompose (rev s)) as (ws & Hws & E).
  exists (rev ws). rewrite forallb_rev. split; [exact Hws|].
  unfold rstrip. rewrite <- rev_app_distr, <- E. symmetry. apply rev_involutive.
Qed.

Lemma strip_decompose (s : pystr) :
  exists ws1 ws2, forallb isspace ws1 = true /\ forallb isspace ws2 = true /\
                  s = ws1 ++ strip s ++ ws2.
Proof.
  destruct (lstrip_decompose s) as (ws1 & H1 & E1).
  destruct (rstrip_decompose (lstrip s)) as (ws2 & H2 & E2).
  exists ws1, ws2. repeat split; auto. unfold strip. now rewrite <- E2.
Qed.

Lemma lstrip_pad (ws y : pystr) :
  forallb isspace ws = true -> lstrip (ws ++ y) = lstrip y.
Proof.
  induction ws as [|c ws IH]; simpl; [reflexivity|].
  intros H. apply andb_true_iff in H as [-> H]. auto.
Qed.

Lemma lstrip_app (y t : pystr) :
  lstrip y <> [] -> lstrip (y ++ t) = lstrip y ++ t.
Proof.
  induction y as [|c y IH]; simpl; [congruence|].
  destruct (isspace c); auto.
Qed.

Lemma rstrip_pad (z ws : pystr) :
  forallb isspace ws = true -> rstrip (z ++ ws) = rstrip z.
Proof.
  intros H. unfold rstrip. rewrite rev_app_distr, lstrip_pad; [reflexivity|].
  now rewrite forallb_rev.
Qed.

Lemma strip_pad (ws1 y ws2 : pystr) :
  forallb isspace ws1 = true -> forallb isspace ws2 = true ->
  strip (ws1 ++ y ++ ws2) = strip y.
Proof.
  intros H1 H2. unfold strip. rewrite lstrip_pad by exact H1.
  destruct (lstrip y) as [|c r] eqn:E.
  - destruct (lstrip_decompose y) as (ws & Hws & Ey).
    rewrite E, app_nil_r in Ey. subst ws.
    rewrite lstrip_spaces; [reflexivity|].
    now rewrite forallb_app, Hws, H2.
  - rewrite lstrip_app by congruence. rewrite E. now apply rstrip_pad.
Qed.

End StringFacts.

(* ------------------------------------------------------------------ *)
(** ** Facts about the matcher *)

Section MatcherFacts.

Variable rest : list item.

Lemma match_lit (l s : pystr) :
  match_items (Lit l :: rest) s =
  if startswith l s
  then option_map (cons l) (match_items rest (skipn (length l) s))
  else None.
Proof. reflexivity. Qed.

Lemma match_greedy (p : char -> bool) (s : pystr) :
  match_items (Greedy p :: rest) s =
  match s with
  | c :: t =>
      if p c
      then match match_items (Greedy p :: rest) t with
           | Some ps => Some (push c ps)
           | None => option_map (cons []) (match_items rest s)
           end
      else option_map (cons []) (match_items rest s)
  | [] => option_map (cons []) (match_items rest s)
  end.
Proof. destruct s; reflexivity. Qed.

Lemma match_lazy (p : char -> bool) (s : pystr) :
  match_items (Lazy p :: rest) s =
  match match_items rest s with
  | Some ps => Some ([] :: ps)
  | None =>
      match s with
      | c :: t =>
          if p c then option_map (push c) (match_items (Lazy p :: rest) t)
          else None
      | [] => None
      end
  end.
Proof. destruct s; reflexivity. Qed.

Lemma lit_inv (l s : pystr) (ps : list pystr) :
  match_items (Lit l :: rest) s = Some ps ->
  exists ps' s', ps = l :: ps' /\ s = l ++ s' /\
                 match_items rest s' = Some ps'.
Proof.
  rewrite match_lit. destruct (startswith l s) eqn:E; [|discriminate].
  destruct (match_items rest (skipn (length l) s)) as [ps'|] eqn:M;
    [|discriminate].
  simpl. intros [= <-]. exists ps', (skipn (length l) s).
  repeat split; auto using startswith_split.
Qed.

Lemma cls_inv (p : char -> bool) (s : pystr) (ps : list pystr) :
  match_items (Cls p :: rest) s = Some ps ->
  exists c ps' s', ps = [c] :: ps' /\ s = c :: s' /\ p c = true /\
                   match_items rest s' = Some ps'.
Proof.
  destruct s as [|c t]; simpl; [discriminate|].
  destruct (p c) eqn:E; [|discriminate].
  destruct (match_items rest t) as [ps'|] eqn:M; [|discriminate].
  simpl. intros [= <-]. now exists c, ps', t.
Qed.

(** A greedy repetition consumes characters of its class only, and the rest
    of the pattern matches what follows. *)
Lemma greedy_inv (p : char -> bool) (s : pystr) (ps : list pystr) :
  match_items (Greedy p :: rest) s = Some ps ->
  exists x ps' s', ps = x :: ps' /\ s = x ++ s' /\ forallb p x = true /\
                   match_items rest s' = Some ps'.
Proof.
  assert (Hstop : forall s ps,
    option_map (cons []) (match_items rest s) = Some ps ->
    exists x ps' s', ps = x :: ps' /\ s = x ++ s' /\ forallb p x = true /\
                     match_items rest s' = Some ps').
  { intros s0 ps0. destruct (match_items rest s0) as [ps'|] eqn:M;
      [|discriminate].
    simpl. intros [= <-]. now exists [], ps', s0. }
  revert ps. induction s as [|c t IH]; intros ps; rewrite match_greedy.
  - apply Hstop.
  - destruct (p c) eqn:Pc; [|apply Hstop].
    destruct (match_items (Greedy p :: rest) t) as [ps1|] eqn:G;
      [|apply Hstop].
    intros [= <-].
    destruct (IH _ eq_refl) as (x & ps' & s' & -> & -> & Hx & M).
    exists (c :: x), ps', s'. simpl. rewrite Pc, Hx. auto.
Qed.

(** A lazy repetition also stops at the first offset where the rest of the
    pattern matches. *)
Lemma lazy_inv (p : char -> bool) (s : pystr) (ps : list pystr) :
  match_items (Lazy p :: rest) s = Some ps ->
  exists x ps' s', ps = x :: ps' /\ s = x ++ s' /\ forallb p x = true /\
                   match_items rest s' = Some ps' /\
                   forall j, j < length x ->
                             match_items rest (skipn j s) = None.
Proof.
  revert ps. induction s as [|c t IH]; intros ps; rewrite match_lazy.
  - destruct (match_items rest []) as [ps'|] eqn:M; [|discriminate].
    intros [= <-]. exists [], ps', []. simpl. repeat split; auto.
    intros j Hj. lia.
  - destruct (match_items rest (c :: t)) as [ps'|] eqn:M.
    + intros [= <-]. exists [], ps', (c :: t). simpl. repeat split; auto.
      intros j Hj. lia.
    + destruct (p c) eqn:Pc; [|discriminate].
      destruct (match_items (Lazy p :: rest) t) as [ps1|] eqn:G;
        [|discriminate].
      simpl. intros [= <-].
      destruct (IH _ eq_refl) as (x & ps' & s' & -> & -> & Hx & M' & Hmin).
      exists (c :: x), ps', s'. simpl. rewrite Pc, Hx.
      repeat split; auto.
      intros [|j] Hj; simpl; [exact M|]. apply Hmin. lia.
Qed.

(** Backtracking finds a match whenever a split of the text exists. *)
Lemma greedy_complete (p : char -> bool) (x s' : pystr) :
  forallb p x = true -> match_items rest s' <> None ->
  match_items (Greedy p :: rest) (x ++ s') <> None.
Proof.
  intros Hx M. induction x as [|c x IH]; simpl app.
  - rewrite match_greedy.
    destruct (match_items rest s') as [ps'|] eqn:E; [|congruence].
    destruct s' as [|c t]; [discriminate|].
    destruct (p c); [|discriminate].
    destruct (match_items (Greedy p :: rest) t); discriminate.
  - simpl in Hx. apply andb_true_iff in Hx as [Pc Hx].
    rewrite match_greedy, Pc.
    destruct (match_items (Greedy p :: rest) (x ++ s')) eqn:E;
      [discriminate|].
    now apply IH in Hx.
Qed.

Lemma lazy_complete (p : char -> bool) (x s' : pystr) :
  forallb p x = true -> match_items rest s' <> None ->
  match_items (Lazy p :: rest) (x ++ s') <> None.
Proof.
  intros Hx M. induction x as [|c x IH]; simpl app; rewrite match_lazy.
  - destruct (match_items rest s'); congruence.
  - simpl in Hx. apply andb_true_iff in Hx as [Pc Hx].
    destruct (match_items rest (c :: x ++ s')); [discriminate|].
    rewrite Pc.
    destruct (match_items (Lazy p :: rest) (x ++ s')) eqn:E;
      [discriminate|].
    now apply IH in Hx.
Qed.

Lemma lit_complete (l s' : pystr) :
  match_items rest s' <> None ->
  match_items (Lit l :: rest) (l ++ s') <> None.
Proof.
  intros M. rewrite match_lit, startswith_app, skipn_app_exact.
  destruct (match_items rest s'); [discriminate|congruence].
Qed.

End MatcherFacts.

(** The text of a match is a prefix of the text matched against. *)
Lemma match_items_prefix (its : list item) (s : pystr) (ps : list pystr) :
  match_items its s = Some ps -> exists post, s = concat ps ++ post.
Proof.
  revert s ps. induction its as [|it rest IH]; intros s ps M.
  - injection M as <-. now exists s.
  - destruct it as [l|p|p|p].
    + apply lit_inv in M as (ps' & s' & -> & -> & M).
      destruct (IH _ _ M) as [post ->]. exists post. simpl.
      now rewrite <- app_assoc.
    + apply cls_inv in M as (c & ps' & s' & -> & -> & _ & M).
      destruct (IH _ _ M) as [post ->]. now exists post.
    + apply greedy_inv in M as (x & ps' & s' & -> & -> & _ & M).
      destruct (IH _ _ M) as [post ->]. exists post. simpl.
      now rewrite <- app_assoc.
    + apply lazy_inv in M as (x & ps' & s' & -> & -> & _ & M & _).
      destruct (IH _ _ M) as [post ->]. exists post. simpl.
      now rewrite <- app_assoc.
Qed.

(* ------------------------------------------------------------------ *)
(** ** Facts about the scan *)

Lemma ordered_weaken (lo lo' : nat) (ms : list Match) :
  lo' <= lo -> ordered lo ms -> ordered lo' ms.
Proof. destruct ms; simpl; [auto|]. intros ? [? ?]. split; [lia|auto]. Qed.

Section ScanFacts.

Variable its : list item.

Lemma tokens_cons (pos skip : nat) (c : char) (t : pystr) :
  tokens its pos skip (c :: t) =
  match skip with
  | S k => tokens its (S pos) k t
  | O =>
      match match_items its (c :: t) with
      | Some ps =>
          match length (concat ps) with
          | S k => Hit (mkMatch pos ps) :: tokens its (S pos) k t
          | O => Keep c :: tokens its (S pos) 0 t
          end
      | None => Keep c :: tokens its (S pos) 0 t
      end
  end.
Proof. reflexivity. Qed.

(** The scan cuts the text into kept characters and matches, losing
    nothing. *)
Lemma tokens_rebuild (s : pystr) (pos skip : nat) :
  rebuild (tokens its pos skip s) = skipn skip s.
Proof.
  revert pos skip. induction s as [|c t IH]; intros pos skip.
  - now destruct skip.
  - rewrite tokens_cons. destruct skip as [|k]; [|apply IH].
    destruct (match_items its (c :: t)) as [ps|] eqn:M;
      [|simpl; now rewrite IH].
    destruct (length (concat ps)) as [|k] eqn:L; [simpl; now rewrite IH|].
    simpl. rewrite IH. unfold group0. simpl.
    apply match_items_prefix in M as [post E].
    change (skipn k t) with (skipn (S k) (c :: t)).
    rewrite <- L, E. now rewrite skipn_app_exact.
Qed.

(** Every reported match lies in the text at its start offset, and is what
    the matcher returns there. *)
Lemma hits_sound (s : pystr) (pos skip : nat) (m : Match) :
  In m (hits (tokens its pos skip s)) ->
  exists pre post,
    s = pre ++ group0 m ++ post /\ m_start m = pos + length pre /\
    skip <= length pre /\ group0 m <> [] /\
    match_items its (group0 m ++ post) = Some (m_pieces m).
Proof.
  revert pos skip. induction s as [|c t IH]; intros pos skip; [easy|].
  rewrite tokens_cons.
  assert (Hnext : forall k, In m (hits (tokens its (S pos) k t)) ->
    skip <= S k ->
    exists pre post,
      c :: t = pre ++ group0 m ++ post /\ m_start m = pos + length pre /\
      skip <= length pre /\ group0 m <> [] /\
      match_items its (group0 m ++ post) = Some (m_pieces m)).
  { intros k H Hk. destruct (IH _ _ H) as (pre & post & -> & St & Sk & Ne & M).
    exists (c :: pre), post. simpl. repeat split; auto; lia. }
  destruct skip as [|k]; [|intros H; apply (Hnext k); auto].
  destruct (match_items its (c :: t)) as [ps|] eqn:M;
    [|simpl; intros H; apply (Hnext 0); auto].
  destruct (length (concat ps)) as [|k] eqn:L;
    [simpl; intros H; apply (Hnext 0); auto|].
  simpl. intros [<-|H]; [|apply (Hnext k); auto; lia].
  destruct (match_items_prefix _ _ M) as [post E].
  exists [], post. unfold group0. simpl. rewrite <- E.
  repeat split; auto; try lia.
  intros Z. now rewrite Z in L.
Qed.

Lemma hits_ordered (s : pystr) (pos skip : nat) :
  ordered (pos + skip) (hits (tokens its pos skip s)).
Proof.
  revert pos skip. induction s as [|c t IH]; intros pos skip; [exact I|].
  rewrite tokens_cons.
  destruct skip as [|k].
  - assert (Hkeep : ordered (pos + 0) (hits (tokens its (S pos) 0 t)))
      by (eapply ordered_weaken; [|apply (IH (S pos) 0)]; lia).
    destruct (match_items its (c :: t)) as [ps|] eqn:M; [|exact Hkeep].
    destruct (length (concat ps)) as [|k] eqn:L; [exact Hkeep|].
    simpl. split; [lia|].
    unfold m_end, group0. simpl. rewrite L.
    eapply ordered_weaken; [|apply (IH (S pos) k)]. lia.
  - eapply ordered_weaken; [|apply (IH (S pos) k)]. lia.
Qed.

(** Every offset where the pattern matches is the start of a reported match
    or lies inside one. *)
Lemma hits_complete (s : pystr) (pos skip p : nat) (ps : list pystr) :
  match_items its (skipn p s) = Some ps -> concat ps <> [] -> skip <= p ->
  (exists m, In m (hits (tokens its pos skip s)) /\
             m_start m = pos + p /\ m_pieces m = ps) \/
  (exists m, In m (hits (tokens its pos skip s)) /\
             m_start m < pos + p < m_end m).
Proof.
  revert pos skip p. induction s as [|c t IH]; intros pos skip p M Ne Sk.
  - exfalso. rewrite skipn_nil in M.
    apply match_items_prefix in M as [post E].
    destruct (concat ps); [congruence|discriminate].
  - rewrite tokens_cons.
    assert (Hnext : forall k p', p = S p' -> k <= p' ->
      forall pre : list Match,
      (exists m, In m (pre ++ hits (tokens its (S pos) k t)) /\
                 m_start m = pos + p /\ m_pieces m = ps) \/
      (exists m, In m (pre ++ hits (tokens its (S pos) k t)) /\
                 m_start m < pos + p < m_end m)).
    { intros k p' -> Hk pre. simpl in M.
      destruct (IH (S pos) k p' M Ne Hk) as [(m & Hin & St & Pc)|(m & Hin & B)].
      - left. exists m. repeat split; auto; [apply in_or_app; auto|lia].
      - right. exists m. split; [apply in_or_app; auto|lia]. }
    destruct skip as [|k].
    + destruct (match_items its (c :: t)) as [ps0|] eqn:M0.
      * destruct (length (concat ps0)) as [|k] eqn:L.
        -- destruct p as [|p'].
           ++ simpl in M. rewrite M0 in M. injection M as ->.
              destruct (concat ps); [congruence|discriminate].
           ++ apply (Hnext 0 p' eq_refl (Nat.le_0_l _) []).
        -- destruct p as [|p'].
           ++ simpl in M. rewrite M0 in M. injection M as ->.
              left. eexists. split; [left; reflexivity|]. simpl. split; auto.
           ++ destruct (le_lt_dec k p') as [Hk|Hk].
              ** apply (Hnext k p' eq_refl Hk [mkMatch pos ps0]).
              ** right. eexists. split; [left; reflexivity|].
                 unfold m_end, group0. simpl. rewrite L. lia.
      * destruct p as [|p'].
        -- simpl in M. congruence.
        -- apply (Hnext 0 p' eq_refl (Nat.le_0_l _) []).
    + destruct p as [|p']; [lia|].
      apply (Hnext k p' eq_refl (le_S_n _ _ Sk) []).
Qed.

(** What [sub] keeps does not depend on the offset the scan starts
    counting from. *)
Lemma kept_pos (s : pystr) (pos pos' skip : nat) :
  kept (tokens its pos skip s) = kept (tokens its pos' skip s).
Proof.
  revert pos pos' skip. induction s as [|c t IH]; intros pos pos' skip;
    [reflexivity|].
  rewrite !tokens_cons. destruct skip as [|k]; [|apply IH].
  destruct (match_items its (c :: t)) as [ps|];
    [|simpl; f_equal; apply IH].
  destruct (length (concat ps)); simpl; [f_equal|]; apply IH.
Qed.

Lemma finditer_sound (s : pystr) (m : Match) :
  In m (finditer its s) ->
  exists pre post,
    s = pre ++ group0 m ++ post /\ m_start m = length pre /\
    group0 m <> [] /\
    match_items its (group0 m ++ post) = Some (m_pieces m).
Proof.
  intros H. apply hits_sound in H as (pre & post & ? & ? & ? & ? & ?).
  now exists pre, post.
Qed.

Lemma finditer_ordered (s : pystr) : ordered 0 (finditer its s).
Proof. apply (hits_ordered s 0 0). Qed.

Lemma finditer_complete (s : pystr) (p : nat) (ps : list pystr) :
  match_items its (skipn p s) = Some ps -> concat ps <> [] ->
  (exists m, In m (finditer its s) /\ m_start m = p /\ m_pieces m = ps) \/
  (exists m, In m (finditer its s) /\ m_start m < p < m_end m).
Proof.
  intros M Ne. apply (@hits_complete s 0 0 p ps M Ne). lia.
Qed.

End ScanFacts.

(* ------------------------------------------------------------------ *)
(** ** The patterns of the script *)

Section PatternFacts.

Lemma match_last_lit (l s : pystr) :
  match_items [Lit l] s = if startswith l s then Some [l] else None.
Proof. rewrite match_lit. now destruct (startswith l s). Qed.

Lemma skipn_app_before (A : Type) (j : nat) (s t : list A) :
  j <= length s -> skipn j (s ++ t) = skipn j s ++ t.
Proof.
  intros H. rewrite skipn_app.
  replace (j - length s) with 0 by lia. reflexivity.
Qed.

(** Whether a closing tag starts at an offset inside [body] does not depend
    on what follows the closing tag that ends the region. *)
Lemma close_inside (body post : pystr) (j : nat) :
  j < length body ->
  startswith close_tag (skipn j (body ++ close_tag ++ post)) =
  startswith close_tag (skipn j (body ++ close_tag)).
Proof.
  intros H. rewrite app_assoc, skipn_app_before.
  - apply startswith_app_r. rewrite length_skipn, length_app.
    change (length close_tag) with 7. lia.
  - rewrite length_app. lia.
Qed.

(** What a match of [view_pattern] looks like. *)
Lemma view_match_inv (s : pystr) (ps : list pystr) :
  match_items view_pattern s = Some ps ->
  exists attrs body post,
    ps = [open_tag; attrs; str ">"; body; close_tag] /\
    s = open_tag ++ attrs ++ str ">" ++ body ++ close_tag ++ post /\
    forallb not_gt attrs = true /\ closes_first body.
Proof.
  unfold view_pattern. intros M.
  apply lit_inv in M as (ps1 & s1 & -> & -> & M).
  apply greedy_inv in M as (attrs & ps2 & s2 & -> & -> & Hattrs & M).
  apply lit_inv in M as (ps3 & s3 & -> & -> & M).
  apply lazy_inv in M as (body & ps4 & s4 & -> & -> & _ & M & Hmin).
  pose proof M as M'.
  apply lit_inv in M' as (ps5 & post & -> & -> & M'). injection M' as <-.
  exists attrs, body, post. repeat split; auto.
  intros j Hj. specialize (Hmin j Hj). rewrite match_last_lit in Hmin.
  rewrite <- (close_inside body post Hj).
  destruct (startswith close_tag (skipn j (body ++ close_tag ++ post)));
    [discriminate|reflexivity].
Qed.

(** Wherever an opening tag is later followed by a closing tag, the pattern
    matches. *)
Lemma view_match_complete (attrs rest : pystr) :
  forallb not_gt attrs = true -> contains close_tag rest = true ->
  match_items view_pattern (open_tag ++ attrs ++ str ">" ++ rest) <> None.
Proof.
  intros Hattrs Hc. apply contains_iff in Hc as (body & post & ->).
  unfold view_pattern.
  apply lit_complete, greedy_complete; [exact Hattrs|].
  apply lit_complete, lazy_complete; [now apply forallb_forall|].
  apply lit_complete. discriminate.
Qed.

Lemma view_match_nonempty (s : pystr) (ps : list pystr) :
  match_items view_pattern s = Some ps -> concat ps <> [].
Proof.
  intros M. apply view_match_inv in M as (? & ? & ? & -> & _).
  discriminate.
Qed.

(** The first [>] after the opening tag is where the attributes end. *)
Lemma attrs_unique (a a' x x' : pystr) :
  forallb not_gt a = true -> forallb not_gt a' = true ->
  a ++ str ">" ++ x = a' ++ str ">" ++ x' -> a = a' /\ x = x'.
Proof.
  revert a'. induction a as [|c a IH]; intros [|c' a']; simpl.
  - intros _ _ [= ->]. auto.
  - intros _ H [= <- _]. discriminate.
  - intros H _ [= -> _]. discriminate.
  - intros H H' [= <- E].
    apply andb_true_iff in H as [_ H]. apply andb_true_iff in H' as [_ H'].
    destruct (IH _ H H' E) as [-> ->]. auto.
Qed.

Lemma app_same_length (A : Type) (l l' x x' : list A) :
  length l = length l' -> l ++ x = l' ++ x' -> l = l'.
Proof.
  revert l'. induction l as [|a l IH]; intros [|a' l']; simpl; try easy.
  intros [= L] [= -> E]. f_equal. now apply IH.
Qed.

(** The first closing tag is where the body ends. *)
Lemma body_shorter (b b' post post' : pystr) :
  closes_first b' -> b ++ close_tag ++ post = b' ++ close_tag ++ post' ->
  length b' <= length b.
Proof.
  intros Hb' E. destruct (le_lt_dec (length b') (length b)) as [|Hlt]; auto.
  specialize (Hb' _ Hlt). rewrite <- (close_inside b' post' Hlt) in Hb'.
  rewrite <- E, skipn_app_exact, startswith_app in Hb'. discriminate.
Qed.

Lemma body_unique (b b' post post' : pystr) :
  closes_first b -> closes_first b' ->
  b ++ close_tag ++ post = b' ++ close_tag ++ post' -> b = b'.
Proof.
  intros Hb Hb' E.
  assert (L : length b = length b').
  { apply Nat.le_antisymm; eapply body_shorter; eauto. }
  now apply (app_same_length b b' _ _ L) in E.
Qed.

(** The region starting at an opening tag is determined by the text: the
    attributes run to the first [>], the body to the first closing tag. *)
Lemma view_match_exact (attrs body post : pystr) :
  forallb not_gt attrs = true -> closes_first body ->
  match_items view_pattern
    (open_tag ++ attrs ++ str ">" ++ body ++ close_tag ++ post) =
  Some [open_tag; attrs; str ">"; body; close_tag].
Proof.
  intros Hattrs Hbody.
  destruct (match_items view_pattern
              (open_tag ++ attrs ++ str ">" ++ body ++ close_tag ++ post))
    as [ps|] eqn:M.
  - destruct (view_match_inv _ M) as (a' & b' & post' & -> & E & Ha' & Hb').
    apply app_inv_head in E.
    apply attrs_unique in E as [<- E]; auto.
    assert (body = b') as <- by (eapply body_unique; eauto).
    reflexivity.
  - exfalso. revert M. apply view_match_complete; auto.
    apply contains_iff. now exists body, post.
Qed.

Lemma brace_match_inv (s : pystr) (ps : list pystr) :
  match_items brace_pattern s = Some ps ->
  exists inner post,
    ps = [str "{"; inner; str "}"] /\
    s = str "{" ++ inner ++ str "}" ++ post /\
    forallb not_rbrace inner = true.
Proof.
  unfold brace_pattern. intros M.
  apply lit_inv in M as (ps1 & s1 & -> & -> & M).
  apply greedy_inv in M as (inner & ps2 & s2 & -> & -> & Hin & M).
  apply lit_inv in M as (ps3 & post & -> & -> & M). injection M as <-.
  now exists inner, post.
Qed.

Lemma brace_match_nonempty (s : pystr) (ps : list pystr) :
  match_items brace_pattern s = Some ps -> concat ps <> [].
Proof.
  intros M. apply brace_match_inv in M as (? & ? & -> & _). discriminate.
Qed.

Lemma tag_match_inv (s : pystr) (ps : list pystr) :
  match_items tag_pattern s = Some ps ->
  exists inner post,
    ps = [str "<"; inner; str ">"] /\
    s = str "<" ++ inner ++ str ">" ++ post /\
    forallb not_gt inner = true.
Proof.
  unfold tag_pattern. intros M.
  apply lit_inv in M as (ps1 & s1 & -> & -> & M).
  apply greedy_inv in M as (inner & ps2 & s2 & -> & -> & Hin & M).
  apply lit_inv in M as (ps3 & post & -> & -> & M). injection M as <-.
  now exists inner, post.
Qed.

Lemma tag_match_nonempty (s : pystr) (ps : list pystr) :
  match_items tag_pattern s = Some ps -> concat ps <> [].
Proof.
  intros M. apply tag_match_inv in M as (? & ? & -> & _). discriminate.
Qed.

(** [re.search(r'[a-zA-Z0-9]+', s)] finds something exactly when [s] has a
    character of the class. *)
Lemma search_alnum (s : pystr) :
  search alnum_pattern s = existsb alnum s.
Proof.
  induction s as [|c t IH]; [reflexivity|].
  simpl existsb. rewrite <- IH. unfold alnum_pattern.
  change (search [Cls alnum; Greedy alnum] (c :: t))
    with (match match_items [Cls alnum; Greedy alnum] (c :: t) with
          | Some _ => true
          | None => search [Cls alnum; Greedy alnum] t
          end).
  change (match_items [Cls alnum; Greedy alnum] (c :: t))
    with (if alnum c
          then option_map (cons [c]) (match_items [Greedy alnum] t)
          else None).
  destruct (alnum c); [|reflexivity].
  assert (G : match_items [Greedy alnum] ([] ++ t) <> None)
    by (apply greedy_complete; [reflexivity|discriminate]).
  simpl app in G.
  destruct (match_items [Greedy alnum] t); [reflexivity|congruence].
Qed.

End PatternFacts.

(* ------------------------------------------------------------------ *)
(** ** Substitution and surrounding whitespace *)

(** Both [re.sub] patterns have the shape [a[^b]*b] with [a] and [b] not
    whitespace, so whitespace around a text stays where it is: trimming
    before or after the substitution gives the same result. *)
Section BracketFacts.

Variables (a b : char) (p : char -> bool).
Hypothesis Ha : isspace a = false.
Hypothesis Hb : isspace b = false.

Lemma space_differs (x c : char) :
  isspace x = false -> isspace c = true -> (x =? c)%N = false.
Proof.
  intros Hx Hc. destruct (x =? c)%N eqn:E; [|reflexivity].
  apply N.eqb_eq in E. congruence.
Qed.

Lemma last_lit_head (c : char) (t : pystr) :
  match_items [Lit [b]] (c :: t) = if (b =? c)%N then Some [[b]] else None.
Proof.
  rewrite match_last_lit. simpl. now rewrite andb_true_r.
Qed.

Lemma tail_spaces (ws : pystr) :
  forallb isspace ws = true -> match_items [Greedy p; Lit [b]] ws = None.
Proof.
  induction ws as [|c t IH]; intros H; rewrite match_greedy;
    [reflexivity|].
  simpl in H. apply andb_true_iff in H as [Hc H].
  rewrite (IH H), last_lit_head, (@space_differs b c Hb Hc).
  now destruct (p c).
Qed.

Lemma tail_pad (x ws : pystr) :
  forallb isspace ws = true ->
  match_items [Greedy p; Lit [b]] (x ++ ws) =
  match_items [Greedy p; Lit [b]] x.
Proof.
  intros H. induction x as [|c x IH]; simpl app.
  - now rewrite tail_spaces by exact H.
  - rewrite (@match_greedy [Lit [b]] p (c :: x ++ ws)).
    rewrite (@match_greedy [Lit [b]] p (c :: x)).
    now rewrite IH, !last_lit_head.
Qed.

Lemma bracket_head (c : char) (t : pystr) :
  match_items (bracket_pattern a b p) (c :: t) =
  if (a =? c)%N
  then option_map (cons [a]) (match_items [Greedy p; Lit [b]] t)
  else None.
Proof.
  unfold bracket_pattern. rewrite match_lit. simpl startswith.
  now rewrite andb_true_r.
Qed.

Lemma bracket_space (c : char) (t : pystr) :
  isspace c = true -> match_items (bracket_pattern a b p) (c :: t) = None.
Proof.
  intros Hc. now rewrite bracket_head, (@space_differs a c Ha Hc).
Qed.

Lemma bracket_pad (c : char) (x ws : pystr) :
  forallb isspace ws = true ->
  match_items (bracket_pattern a b p) (c :: x ++ ws) =
  match_items (bracket_pattern a b p) (c :: x).
Proof.
  intros H. rewrite !bracket_head. now rewrite tail_pad by exact H.
Qed.

Lemma kept_spaces (ws : pystr) (pos skip : nat) :
  forallb isspace ws = true ->
  kept (tokens (bracket_pattern a b p) pos skip ws) = skipn skip ws.
Proof.
  revert pos skip. induction ws as [|c t IH]; intros pos skip H.
  - now destruct skip.
  - simpl in H. apply andb_true_iff in H as [Hc H].
    rewrite tokens_cons. destruct skip as [|k]; [|now apply IH].
    rewrite bracket_space by exact Hc. simpl. f_equal. now apply IH.
Qed.

Lemma kept_trail (x ws : pystr) (pos skip : nat) :
  forallb isspace ws = true ->
  kept (tokens (bracket_pattern a b p) pos skip (x ++ ws)) =
  kept (tokens (bracket_pattern a b p) pos skip x)
    ++ skipn (skip - length x) ws.
Proof.
  intros H. revert pos skip.
  induction x as [|c x IH]; intros pos skip; cbn [app length].
  - rewrite Nat.sub_0_r. now apply kept_spaces.
  - rewrite (@tokens_cons (bracket_pattern a b p) pos skip c (x ++ ws)).
    rewrite (@tokens_cons (bracket_pattern a b p) pos skip c x).
    destruct skip as [|k]; [|apply IH].
    rewrite bracket_pad by exact H.
    destruct (match_items (bracket_pattern a b p) (c :: x)) as [ps|] eqn:M;
      [|simpl; f_equal; apply IH].
    destruct (length (concat ps)) as [|k] eqn:L;
      [simpl; f_equal; apply IH|].
    simpl. rewrite IH.
    apply match_items_prefix in M as [post E].
    apply (f_equal (@length char)) in E.
    rewrite length_app, L in E. simpl in E.
    replace (k - length x) with 0 by lia. reflexivity.
Qed.

Lemma kept_lead (ws y : pystr) :
  forallb isspace ws = true ->
  kept (tokens (bracket_pattern a b p) 0 0 (ws ++ y)) =
  ws ++ kept (tokens (bracket_pattern a b p) 0 0 y).
Proof.
  induction ws as [|c t IH]; intros H; [reflexivity|].
  simpl in H. apply andb_true_iff in H as [Hc H].
  cbn [app]. rewrite tokens_cons. rewrite bracket_space by exact Hc.
  cbn [kept]. f_equal.
  rewrite (@kept_pos (bracket_pattern a b p) (t ++ y) 1 0 0).
  now apply IH.
Qed.

Lemma sub_pad (ws1 x ws2 : pystr) :
  forallb isspace ws1 = true -> forallb isspace ws2 = true ->
  sub_empty (bracket_pattern a b p) (ws1 ++ x ++ ws2) =
  ws1 ++ sub_empty (bracket_pattern a b p) x ++ ws2.
Proof.
  intros H1 H2. unfold sub_empty.
  rewrite kept_lead by exact H1. rewrite kept_trail by exact H2.
  reflexivity.
Qed.

End BracketFacts.

(** Cleaning the trimmed body, as the script does, is cleaning the body. *)
Lemma cleaned_body (body : pystr) :
  cleaned (strip body) =
  strip (sub_empty tag_pattern (sub_empty brace_pattern body)).
Proof.
  destruct (strip_decompose body) as (ws1 & ws2 & H1 & H2 & E).
  rewrite E at 2. unfold cleaned.
  change brace_pattern with (bracket_pattern 123%N 125%N not_rbrace).
  change tag_pattern with (bracket_pattern 60%N 62%N not_gt).
  rewrite (@sub_pad 123%N 125%N not_rbrace eq_refl eq_refl) by assumption.
  rewrite (@sub_pad 60%N 62%N not_gt eq_refl eq_refl) by assumption.
  now rewrite strip_pad.
Qed.

(* ------------------------------------------------------------------ *)
(** ** Whole spans *)

(** After a match the scan resumes at its end. *)
Lemma kept_skip (its : list item) (x rest : pystr) (pos : nat) :
  kept (tokens its pos (length x) (x ++ rest)) = kept (tokens its 0 0 rest).
Proof.
  revert pos. induction x as [|c x IH]; intros pos; cbn [app length].
  - apply kept_pos.
  - rewrite tokens_cons. apply IH.
Qed.

Lemma kept_hit (its : list item) (g rest : pystr) (ps : list pystr)
    (pos : nat) :
  match_items its (g ++ rest) = Some ps -> concat ps = g -> g <> [] ->
  kept (tokens its pos 0 (g ++ rest)) = kept (tokens its 0 0 rest).
Proof.
  intros M E Ne. destruct g as [|c g]; [congruence|].
  cbn [app] in *. rewrite tokens_cons, M, E. cbn [length kept].
  apply kept_skip.
Qed.

Section BracketExact.

Variables (a b : char) (p : char -> bool).
Hypothesis Hb : p b = false.

Lemma tail_exact (e post : pystr) :
  forallb p e = true ->
  match_items [Greedy p; Lit [b]] (e ++ b :: post) = Some [e; [b]].
Proof.
  induction e as [|c e IH]; intros H; cbn [app]; rewrite match_greedy.
  - now rewrite Hb, (@last_lit_head b), N.eqb_refl.
  - simpl in H. apply andb_true_iff in H as [-> H]. now rewrite (IH H).
Qed.

Lemma bracket_exact (e post : pystr) :
  forallb p e = true ->
  match_items (bracket_pattern a b p) (a :: e ++ b :: post) =
  Some [[a]; e; [b]].
Proof.
  intros H. rewrite (@bracket_head a b p), N.eqb_refl.
  now rewrite tail_exact.
Qed.

(** A whole span [a e b] is dropped. *)
Lemma kept_span (e rest : pystr) (pos : nat) :
  forallb p e = true ->
  kept (tokens (bracket_pattern a b p) pos 0 (a :: e ++ b :: rest)) =
  kept (tokens (bracket_pattern a b p) 0 0 rest).
Proof.
  intros H.
  replace (a :: e ++ b :: rest) with ((a :: e ++ [b]) ++ rest)
    by (cbn [app]; now rewrite <- app_assoc).
  apply (@kept_hit _ _ _ [[a]; e; [b]]).
  - cbn [app]. rewrite <- app_assoc. now apply bracket_exact.
  - reflexivity.
  - discriminate.
Qed.

(** Characters other than [a] are kept. *)
Lemma kept_other (w rest : pystr) :
  ~ In a w ->
  kept (tokens (bracket_pattern a b p) 0 0 (w ++ rest)) =
  w ++ kept (tokens (bracket_pattern a b p) 0 0 rest).
Proof.
  induction w as [|c w IH]; intros H; [reflexivity|].
  cbn [app]. rewrite tokens_cons, (@bracket_head a b p).
  destruct (N.eqb_spec a c) as [->|Ne]; [exfalso; apply H; now left|].
  cbn [kept]. f_equal.
  rewrite (@kept_pos (bracket_pattern a b p) (w ++ rest) 1 0 0).
  apply IH. intros Hin. apply H. now right.
Qed.

(** The first [a] of a text that has a [b] after it starts the first
    match. *)
Lemma hits_first (pre e post : pystr) (pos : nat) :
  ~ In a pre -> forallb p e = true ->
  exists r,
    hits (tokens (bracket_pattern a b p) pos 0 (pre ++ a :: e ++ b :: post))
    = mkMatch (pos + length pre) [[a]; e; [b]] :: r.
Proof.
  revert pos. induction pre as [|c pre IH]; intros pos Hpre He.
  - cbn [app length]. rewrite tokens_cons, bracket_exact by assumption.
    rewrite Nat.add_0_r. cbn [concat app length hits]. eauto.
  - cbn [app length]. rewrite tokens_cons, (@bracket_head a b p).
    destruct (N.eqb_spec a c) as [->|Ne]; [exfalso; apply Hpre; now left|].
    cbn [hits]. destruct (IH (S pos)) as [r E]; auto.
    + intros Hin. apply Hpre. now right.
    + exists r. rewrite E. f_equal. f_equal. lia.
Qed.

End BracketExact.

(* ------------------------------------------------------------------ *)
(** ** The loop over one file *)

Section ScriptFacts.

Lemma truthy_false (s : pystr) : truthy s = false -> s = [].
Proof. now destruct s. Qed.

Lemma process_match_spec (filepath text : pystr) (acc : list Issue)
    (m : Match) :
  process_match filepath text acc m =
  if suspicious m then acc ++ [issue_of filepath text m] else acc.
Proof.
  unfold process_match, suspicious.
  destruct (truthy (view_content m)) eqn:T; simpl.
  - rewrite search_alnum.
    destruct (cleaned (view_content m)) as [|c r]; reflexivity.
  - apply truthy_false in T. rewrite T. reflexivity.
Qed.

Lemma fold_process (filepath text : pystr) (ms : list Match)
    (acc : list Issue) :
  fold_left (process_match filepath text) ms acc =
  acc ++ map (issue_of filepath text) (filter suspicious ms).
Proof.
  revert acc. induction ms as [|m ms IH]; intros acc; simpl.
  - now rewrite app_nil_r.
  - rewrite IH, process_match_spec.
    destruct (suspicious m); [|reflexivity].
    simpl. now rewrite <- app_assoc.
Qed.

(** The issues of one file: one per suspicious region, in match order. *)
Lemma scan_content_spec (filepath text : pystr) (acc : list Issue) :
  scan_content filepath text acc =
  acc ++ map (issue_of filepath text)
             (filter suspicious (finditer view_pattern text)).
Proof. apply fold_process. Qed.

Lemma scan_content_in (filepath text : pystr) (iss : Issue) :
  In iss (scan_content filepath text []) ->
  exists m, In m (finditer view_pattern text) /\ suspicious m = true /\
            iss = issue_of filepath text m.
Proof.
  rewrite scan_content_spec. simpl. intros H.
  apply in_map_iff in H as (m & <- & H).
  apply filter_In in H as [H S]. now exists m.
Qed.

End ScriptFacts.

(* ------------------------------------------------------------------ *)
(** ** The walk *)

Section WalkFacts.

Variable con : console.
Variable fs : filesystem.

Lemma after_files_nil (st : state) : after_files fs st [] = st.
Proof. destruct st. unfold after_files. simpl. now rewrite !app_nil_r. Qed.

Lemma after_files_app (st : state) (l l' : list pystr) :
  after_files fs (after_files fs st l) l' = after_files fs st (l ++ l').
Proof.
  unfold after_files. simpl.
  now rewrite !flat_map_app, !app_assoc.
Qed.

Lemma selected_app (w w' : list entry) :
  selected (w ++ w') = selected w ++ selected w'.
Proof. apply flat_map_app. Qed.

Lemma for_each_app (A : Type) (body : state -> A -> result state)
    (l l' : list A) (st : state) :
  for_each body (l ++ l') st =
  and_then (for_each body l st) (for_each body l').
Proof.
  revert st. induction l as [|x l IH]; intros st; [reflexivity|].
  cbn [app for_each]. destruct (body st x); [apply IH|reflexivity].
Qed.

Lemma scan_files_app (l l' : list pystr) (st : state) :
  scan_files con fs (l ++ l') st =
  and_then (scan_files con fs l st) (scan_files con fs l').
Proof. apply for_each_app. Qed.

Lemma scan_files_cons (fp : pystr) (l : list pystr) (st : state) :
  scan_files con fs (fp :: l) st =
  and_then (scan_file con fs fp st) (scan_files con fs l).
Proof. reflexivity. Qed.

Lemma visit_files_spec (root : pystr) (files : list pystr) (st : state) :
  for_each (visit_file con fs root) files st =
  scan_files con fs (map (path_join root) (filter has_ext files)) st.
Proof.
  revert st. induction files as [|f files IH]; intros st; [reflexivity|].
  cbn [for_each filter]. unfold visit_file at 1.
  destruct (has_ext f); [|apply IH].
  cbn [map]. rewrite scan_files_cons.
  destruct (scan_file con fs (path_join root f) st); [apply IH|reflexivity].
Qed.

Lemma visit_dir_spec (st : state) (e : entry) :
  visit_dir con fs st e = scan_files con fs (selected [e]) st.
Proof.
  destruct e as [[root dirs] files]. unfold visit_dir, selected.
  cbn [flat_map]. rewrite app_nil_r.
  destruct (excluded root); [reflexivity|apply visit_files_spec].
Qed.

Lemma visit_dirs_spec (walk : list entry) (st : state) :
  for_each (visit_dir con fs) walk st =
  scan_files con fs (selected walk) st.
Proof.
  revert st. induction walk as [|e walk IH]; intros st; [reflexivity|].
  change (e :: walk) with ([e] ++ walk) at 2.
  rewrite selected_app, scan_files_app. cbn [for_each].
  rewrite visit_dir_spec.
  destruct (scan_files con fs (selected [e]) st); [apply IH|reflexivity].
Qed.

(** The run is the [try] block for each selected file, in order, until a
    [print] raises. *)
Lemma run_spec (walk : list entry) :
  run con fs walk = scan_files con fs (selected walk) init.
Proof. apply visit_dirs_spec. Qed.

Lemma scan_file_done (fp : pystr) (st st' : state) :
  scan_file con fs fp st = Done st' -> st' = after_files fs st [fp].
Proof.
  unfold scan_file, print, after_files. cbn [flat_map].
  unfold file_issues, file_output.
  destruct (fs fp) as [text|e].
  - intros [= <-]. rewrite (scan_content_spec fp text (issues st)).
    rewrite (scan_content_spec fp text []). now rewrite !app_nil_r.
  - destruct (con (stdout st) (error_line fp e)); [|discriminate].
    intros [= <-]. now rewrite !app_nil_r.
Qed.

(** A run of the files [l] that ends normally has opened each of them and
    added its issues or its error line. *)
Lemma scan_files_done (l : list pystr) (st st' : state) :
  scan_files con fs l st = Done st' -> st' = after_files fs st l.
Proof.
  revert st. induction l as [|fp l IH]; intros st.
  - intros [= <-]. now rewrite after_files_nil.
  - rewrite scan_files_cons.
    destruct (scan_file con fs fp st) as [st1|st1] eqn:E; [|discriminate].
    cbn [and_then]. intros H. apply IH in H.
    apply scan_file_done in E. subst st1.
    now rewrite after_files_app in H.
Qed.

Lemma run_done (walk : list entry) (st : state) :
  run con fs walk = Done st ->
  st = mkState (flat_map (file_issues fs) (selected walk))
               (flat_map (file_output fs) (selected walk))
               (selected walk).
Proof. rewrite run_spec. apply scan_files_done. Qed.

(** However a run of the files [l] ends, it has opened a first part of [l]
    and holds the issues of that part. *)
Lemma scan_files_reach (l : list pystr) (st : state) :
  exists l1 l2,
    l = l1 ++ l2 /\
    issues (state_of (scan_files con fs l st)) =
      issues st ++ flat_map (file_issues fs) l1 /\
    opened (state_of (scan_files con fs l st)) = opened st ++ l1.
Proof.
  revert st. induction l as [|fp l IH]; intros st.
  - exists [], []. cbn. now rewrite !app_nil_r.
  - rewrite scan_files_cons.
    destruct (scan_file con fs fp st) as [st1|st1] eqn:E; cbn [and_then].
    + destruct (IH st1) as (l1 & l2 & -> & I & O).
      apply scan_file_done in E. subst st1.
      exists (fp :: l1), l2. split; [reflexivity|].
      rewrite I, O. unfold after_files. cbn [issues opened flat_map].
      now rewrite !app_nil_r, <- !app_assoc.
    + exists [fp], l. split; [reflexivity|]. cbn [state_of].
      unfold scan_file, print in E.
      destruct (fs fp) as [text|e] eqn:R; [discriminate|].
      destruct (con (stdout st) (error_line fp e)); [discriminate|].
      injection E as <-. cbn [issues opened flat_map].
      unfold file_issues. rewrite R. now rewrite !app_nil_r.
Qed.

(** Whatever is printed during the scan is an error line. *)
Lemma scan_files_prints (l : list pystr) (st : state) :
  exists errs,
    stdout (state_of (scan_files con fs l st)) = stdout st ++ errs /\
    Forall (fun t => exists fp e, t = error_line fp e) errs.
Proof.
  revert st. induction l as [|fp l IH]; intros st.
  - exists []. cbn. now rewrite app_nil_r.
  - rewrite scan_files_cons. unfold scan_file, print.
    destruct (fs fp) as [text|e].
    + cbn [and_then].
      match goal with
      | |- context [scan_files con fs l ?s] => destruct (IH s) as (errs & E & F)
      end.
      exists errs. now rewrite E.
    + destruct (con (stdout st) (error_line fp e)); cbn [and_then].
      * match goal with
        | |- context [scan_files con fs l ?s] =>
            destruct (IH s) as (errs & E & F)
        end.
        exists (error_line fp e :: errs). rewrite E. cbn [stdout].
        rewrite <- app_assoc. split; [reflexivity|].
        constructor; eauto.
      * exists []. cbn. now rewrite app_nil_r.
Qed.

End WalkFacts.

(* ------------------------------------------------------------------ *)
(** ** Properties of the detection heuristic *)

Lemma firstn_exact (A : Type) (l t : list A) : firstn (length l) (l ++ t) = l.
Proof. induction l; simpl; congruence. Qed.

(** Where [finditer] reports a [view_pattern] match, the text reads: opening
    tag, attributes without [>], [>], a body in which no closing tag starts,
    closing tag. *)
Lemma view_region (text : pystr) (m : Match) :
  In m (finditer view_pattern text) ->
  exists pre attrs body post,
    text = pre ++ open_tag ++ attrs ++ str ">" ++ body ++ close_tag ++ post /\
    m_start m = length pre /\
    m_pieces m = [open_tag; attrs; str ">"; body; close_tag] /\
    forallb not_gt attrs = true /\ closes_first body.
Proof.
  intros H. apply finditer_sound in H as (pre & post & E & St & _ & M).
  apply view_match_inv in M as (attrs & body & post' & P & E' & Ha & Hb).
  exists pre, attrs, body, post'. repeat split; auto.
  rewrite E. f_equal. exact E'.
Qed.



(** C2: a region whose body is empty or whitespace only appends no Issue. *)
Theorem C2_blank_body_no_issue (filepath text : pystr)
    (acc : list Issue) (m : Match) :
  In m (finditer view_pattern text) ->
  forallb isspace (group1 m) = true ->
  process_match filepath text acc m = acc.
Proof.
  intros _ H. unfold process_match, view_content.
  now rewrite (strip_spaces _ H).
Qed.

Lemma C2_witness :
  let text := str "<View>   </View>" in
  let m := mkMatch 0 [open_tag; []; str ">"; str "   "; close_tag] in
  In m (finditer view_pattern text) /\
  forallb isspace (group1 m) = true /\
  process_match (str "App.tsx") text [] m = [].
Proof.
  intros text m.
  assert (Hin : In m (finditer view_pattern text))
    by (vm_compute; left; reflexivity).
  assert (Hsp : forallb isspace (group1 m) = true)
    by (vm_compute; reflexivity).
  split; [exact Hin|]. split; [exact Hsp|].
  exact (C2_blank_body_no_issue (str "App.tsx") text [] m Hin Hsp).
Defined.

(** C4: region extraction reports, from left to right and without overlap,
    every opening tag (with any attributes up to the first [>]) through the
    first closing tag that follows, line breaks included; an opening tag
    followed by a closing tag is missed only when it lies inside a region
    already reported.  A container holding another container of the same
    kind therefore gets a body that ends at the inner closing tag. *)
Theorem C4_region_to_first_closing_tag (text : pystr) :
  (forall m, In m (finditer view_pattern text) ->
     exists pre attrs body post,
       text = pre ++ open_tag ++ attrs ++ str ">" ++ body ++ close_tag ++ post
       /\ m_start m = length pre
       /\ m_pieces m = [open_tag; attrs; str ">"; body; close_tag]
       /\ forallb not_gt attrs = true /\ closes_first body) /\
  ordered 0 (finditer view_pattern text) /\
  (forall pre attrs rest,
     text = pre ++ open_tag ++ attrs ++ str ">" ++ rest ->
     forallb not_gt attrs = true -> contains close_tag rest = true ->
     (exists m, In m (finditer view_pattern text) /\ m_start m = length pre)
     \/ (exists m, In m (finditer view_pattern text) /\
                   m_start m < length pre < m_end m)) /\
  (forall m pre a1 b1 a2 b2 b3 post,
     In m (finditer view_pattern text) -> m_start m = length pre ->
     text = pre ++ open_tag ++ a1 ++ str ">" ++ b1
                ++ (open_tag ++ a2 ++ str ">" ++ b2 ++ close_tag)
                ++ b3 ++ close_tag ++ post ->
     forallb not_gt a1 = true ->
     closes_first (b1 ++ open_tag ++ a2 ++ str ">" ++ b2) ->
     group1 m = b1 ++ open_tag ++ a2 ++ str ">" ++ b2 /\
     group0 m = open_tag ++ a1 ++ str ">" ++ b1
                  ++ open_tag ++ a2 ++ str ">" ++ b2 ++ close_tag).
Proof.
  split; [apply view_region|]. split; [apply finditer_ordered|]. split.
  - intros pre attrs rest E Ha Hc.
    destruct (match_items view_pattern (skipn (length pre) text))
      as [ps|] eqn:M.
    + destruct (@finditer_complete view_pattern text (length pre) ps M
                  (@view_match_nonempty _ ps M))
        as [(m & Hin & St & _)|(m & Hin & B)].
      * left. now exists m.
      * right. now exists m.
    + exfalso. revert M. rewrite E, skipn_app_exact.
      now apply view_match_complete.
  - intros m pre a1 b1 a2 b2 b3 post Hin St E Ha Hb.
    apply finditer_sound in Hin as (pre' & post' & E' & St' & _ & M).
    assert (pre = pre').
    { rewrite E' in E. symmetry in E.
      apply app_same_length in E; auto. congruence. }
    subst pre'. rewrite E in E'. apply app_inv_head in E'.
    rewrite <- E' in M.
    replace (open_tag ++ a1 ++ str ">" ++ b1
               ++ (open_tag ++ a2 ++ str ">" ++ b2 ++ close_tag)
               ++ b3 ++ close_tag ++ post)
      with (open_tag ++ a1 ++ str ">"
              ++ (b1 ++ open_tag ++ a2 ++ str ">" ++ b2) ++ close_tag
              ++ (b3 ++ close_tag ++ post)) in M
      by (now rewrite <- !app_assoc).
    rewrite view_match_exact in M by assumption. injection M as M.
    unfold group1, piece, group0. rewrite <- M.
    split; [reflexivity|].
    simpl. rewrite <- app_assoc. simpl. rewrite <- app_assoc. reflexivity.
Qed.

Lemma C4_witness :
  let text := str "<View><View>a</View>b</View>" in
  let m := mkMatch 0 [open_tag; []; str ">"; str "<View>a"; close_tag] in
  finditer view_pattern text = [m] /\
  group1 m = str "<View>a" /\ group0 m = str "<View><View>a</View>".
Proof.
  intros text m.
  assert (Hin : In m (finditer view_pattern text))
    by (vm_compute; left; reflexivity).
  split; [vm_compute; reflexivity|].
  apply (proj2 (proj2 (proj2 (C4_region_to_first_closing_tag text)))
           m [] [] [] [] (str "a") (str "b") [] Hin eq_refl eq_refl eq_refl).
  intros j Hj. do 7 (destruct j as [|j]; [reflexivity|]).
  simpl in Hj. lia.
Defined.

(** C3, as stated, fails: the brace pattern is [\{[^}]*\}], and [[^}]]
    matches a line break, so the span removed from this two-line expression
    contains the newline. *)
Lemma C3_counterexample :
  let body := str "{a" ++ [nl] ++ str "b}" in
  finditer brace_pattern body = [mkMatch 0 [str "{"; [97; nl; 98]%N; str "}"]]
  /\ In nl (group0 (mkMatch 0 [str "{"; [97; nl; 98]%N; str "}"]))
  /\ sub_empty brace_pattern body = []
  /\ scan_content (str "App.tsx")
       (str "<View>" ++ body ++ str "</View>") [] = [].
Proof. vm_compute. intuition. Qed.

(** C3, amended: each span the brace substitution removes runs from an opening
    brace to the first closing brace after it, with no closing brace in
    between, and the scan cuts the body into kept characters and such spans.
    The first opening brace of a text, with everything up to the first closing
    brace after it, is removed whole, whatever lies between them: a line
    break there does not end the span. *)
Theorem C3_brace_span_to_first_closing_brace (body : pystr) :
  (forall m, In m (finditer brace_pattern body) ->
     exists pre inner post,
       body = pre ++ str "{" ++ inner ++ str "}" ++ post /\
       m_start m = length pre /\
       group0 m = str "{" ++ inner ++ str "}" /\
       forallb not_rbrace inner = true) /\
  rebuild (tokens brace_pattern 0 0 body) = body /\
  sub_empty brace_pattern body = kept (tokens brace_pattern 0 0 body) /\
  (forall pre inner post,
     body = pre ++ str "{" ++ inner ++ str "}" ++ post ->
     ~ In 123%N pre -> forallb not_rbrace inner = true ->
     (exists r, finditer brace_pattern body =
                mkMatch (length pre) [str "{"; inner; str "}"] :: r) /\
     sub_empty brace_pattern body = pre ++ sub_empty brace_pattern post) /\
  (forall pre l1 l2 post,
     body = pre ++ str "{" ++ l1 ++ [nl] ++ l2 ++ str "}" ++ post ->
     ~ In 123%N pre ->
     forallb not_rbrace l1 = true -> forallb not_rbrace l2 = true ->
     sub_empty brace_pattern body = pre ++ sub_empty brace_pattern post).
Proof.
  assert (Whole : forall pre inner post,
    body = pre ++ str "{" ++ inner ++ str "}" ++ post ->
    ~ In 123%N pre -> forallb not_rbrace inner = true ->
    sub_empty brace_pattern body = pre ++ sub_empty brace_pattern post).
  { intros pre inner post -> Hpre Hin. unfold sub_empty.
    change brace_pattern with (bracket_pattern 123%N 125%N not_rbrace).
    rewrite (@kept_other 123%N 125%N not_rbrace) by assumption.
    change (str "{" ++ inner ++ str "}" ++ post)
      with (123%N :: inner ++ 125%N :: post).
    now rewrite (@kept_span 123%N 125%N not_rbrace eq_refl). }
  split; [|split; [apply tokens_rebuild|split; [reflexivity|split]]].
  - intros m H. apply finditer_sound in H as (pre & post & E & St & _ & M).
    apply brace_match_inv in M as (inner & post' & P & E' & Hin).
    exists pre, inner, post'. repeat split; auto.
    + rewrite E. f_equal. exact E'.
    + unfold group0. rewrite P. reflexivity.
  - intros pre inner post E Hpre Hin. split; [|now apply (Whole pre inner)].
    rewrite E. unfold finditer.
    change brace_pattern with (bracket_pattern 123%N 125%N not_rbrace).
    change (str "{" ++ inner ++ str "}" ++ post)
      with (123%N :: inner ++ 125%N :: post).
    apply (@hits_first 123%N 125%N not_rbrace eq_refl); assumption.
  - intros pre l1 l2 post E Hpre H1 H2.
    apply (Whole pre (l1 ++ [nl] ++ l2)); auto.
    + rewrite E. now rewrite <- !app_assoc.
    + now rewrite !forallb_app, H1, H2.
Qed.

Lemma C3_witness :
  let body := str "x{a" ++ [nl] ++ str "b}y" in
  let m := mkMatch 1 [str "{"; [97; nl; 98]%N; str "}"] in
  finditer brace_pattern body = [m] /\
  sub_empty brace_pattern body = str "xy" /\
  exists pre inner post,
    body = pre ++ str "{" ++ inner ++ str "}" ++ post /\
    m_start m = length pre /\
    group0 m = str "{" ++ inner ++ str "}" /\
    forallb not_rbrace inner = true.
Proof.
  intros body m.
  assert (F : finditer brace_pattern body = [m]) by (vm_compute; reflexivity).
  split; [exact F|]. split.
  - assert (Hpre : ~ In 123%N (str "x"))
      by (vm_compute; intuition discriminate).
    exact (proj2 (proj2 (proj2 (proj2
             (C3_brace_span_to_first_closing_brace body))))
             (str "x") (str "a") (str "b") (str "y")
             eq_refl Hpre eq_refl eq_refl).
  - apply (proj1 (C3_brace_span_to_first_closing_brace body) m).
    rewrite F. now left.
Defined.

(** C7: the line number of every Issue is 1 plus the number of newline
    characters in the text that precedes the start offset of its region. *)
Theorem C7_line_number (filepath text : pystr) (iss : Issue) :
  In iss (scan_content filepath text []) ->
  exists m pre post,
    In m (finditer view_pattern text) /\
    text = pre ++ group0 m ++ post /\ m_start m = length pre /\
    pre = firstn (m_start m) text /\
    content iss = snippet m /\
    line iss = 1 + count nl pre.
Proof.
  intros H. apply scan_content_in in H as (m & Hin & _ & ->).
  destruct (finditer_sound _ _ _ Hin) as (pre & post & E & St & _).
  assert (F : pre = firstn (m_start m) text)
    by (now rewrite St, E, firstn_exact).
  exists m, pre, post. repeat split; auto.
  simpl. unfold line_num. rewrite <- F. lia.
Qed.

Lemma C7_witness :
  let text := str "import x" ++ [nl] ++ [nl] ++ str "<View>hi</View>" in
  let iss := mkIssue (str "App.tsx") 3 (str "<View>hi</View>") in
  In iss (scan_content (str "App.tsx") text []) /\
  exists m pre post,
    In m (finditer view_pattern text) /\
    text = pre ++ group0 m ++ post /\ m_start m = length pre /\
    pre = firstn (m_start m) text /\
    content iss = snippet m /\
    line iss = 1 + count nl pre.
Proof.
  intros text iss.
  assert (Hin : In iss (scan_content (str "App.tsx") text []))
    by (vm_compute; left; reflexivity).
  split; [exact Hin|].
  exact (C7_line_number (str "App.tsx") text iss Hin).
Defined.

(** C8: the snippet of an Issue is the matched region itself when the region
    has at most 100 characters, and otherwise its first 100 characters
    followed by the marker [...]. *)
Theorem C8_snippet_truncation (filepath text : pystr) (iss : Issue) :
  In iss (scan_content filepath text []) ->
  exists m pre post,
    In m (finditer view_pattern text) /\
    text = pre ++ group0 m ++ post /\ m_start m = length pre /\
    line iss = line_num text m /\
    (100 < length (group0 m) ->
       content iss = firstn 100 (group0 m) ++ str "..." /\
       length (firstn 100 (group0 m)) = 100) /\
    (length (group0 m) <= 100 -> content iss = group0 m).
Proof.
  intros H. apply scan_content_in in H as (m & Hin & _ & ->).
  destruct (finditer_sound _ _ _ Hin) as (pre & post & E & St & _).
  exists m, pre, post. do 4 (split; [assumption || reflexivity|]).
  unfold issue_of. cbn [content]. unfold snippet. split.
  - intros H. split; [|rewrite length_firstn; lia].
    apply Nat.ltb_lt in H. now rewrite H.
  - intros H. apply Nat.ltb_ge in H. now rewrite H.
Qed.

Lemma C8_witness :
  let long := repeat 120%N 101 in
  let text := str "<View>" ++ long ++ str "</View>" in
  let iss := mkIssue (str "App.tsx") 1
               (str "<View>" ++ repeat 120%N 94 ++ str "...") in
  In iss (scan_content (str "App.tsx") text []) /\
  exists m pre post,
    In m (finditer view_pattern text) /\
    text = pre ++ group0 m ++ post /\ m_start m = length pre /\
    line iss = line_num text m /\
    (100 < length (group0 m) ->
       content iss = firstn 100 (group0 m) ++ str "..." /\
       length (firstn 100 (group0 m)) = 100) /\
    (length (group0 m) <= 100 -> content iss = group0 m).
Proof.
  intros long text iss.
  assert (Hin : In iss (scan_content (str "App.tsx") text []))
    by (vm_compute; left; reflexivity).
  split; [exact Hin|].
  exact (C8_snippet_truncation (str "App.tsx") text iss Hin).
Defined.

Lemma selected_intro (walk : list entry) (root : pystr)
    (dirs files : list pystr) (f : pystr) :
  In (root, dirs, files) walk -> In f files ->
  excluded root = false -> has_ext f = true ->
  In (path_join root f) (selected walk).
Proof.
  intros Hw Hf X E. unfold selected. apply in_flat_map.
  exists (root, dirs, files). split; [exact Hw|]. rewrite X.
  apply in_map, filter_In. now split.
Qed.

(** C5, as stated, fails: the diagnostic is printed inside the [except]
    handler, and nothing catches an exception of that [print].  Here the
    first file cannot be read and its path holds a lone surrogate (a file
    name with an undecodable byte), which a strict UTF-8 output cannot
    encode: nothing is printed, the exception ends the run, and the second
    file is never opened. *)
Lemma C5_counterexample :
  let bad := str "/app/src/" ++ [56448%N] ++ str ".tsx" in
  let fs := fun p : pystr =>
              if endswith (str "B.tsx") p
              then ReadOk (str "<View>x</View>")
              else ReadFail (str "[Errno 13] Permission denied") in
  let walk := [(str "/app/src", @nil pystr,
                [[56448%N] ++ str ".tsx"; str "B.tsx"])] in
  selected walk = [bad; str "/app/src/B.tsx"] /\
  fs bad = ReadFail (str "[Errno 13] Permission denied") /\
  run console_strict fs walk = Raised (mkState [] [] [bad]) /\
  find_text_in_views console_strict fs walk = None /\
  main console_strict fs walk = Raised [].
Proof. vm_compute. intuition. Qed.

(** C5, amended: when reading a selected file fails and the diagnostic can be
    printed, the [try] block prints one line that names the path, leaves
    [issues] as it was and ends normally, and the run goes on to the
    remaining files; a run that ends normally has opened every selected
    file and holds the issues of the other files.  When that [print] itself
    raises, the run ends there. *)
Theorem C5_read_failure_is_local (con : console) (fs : filesystem)
    (walk : list entry) (before after : list pystr) (filepath e : pystr) :
  selected walk = before ++ filepath :: after ->
  fs filepath = ReadFail e ->
  contains filepath (error_line filepath e) = true /\
  (forall st, con (stdout st) (error_line filepath e) = true ->
     scan_file con fs filepath st =
     Done (mkState (issues st)
                   (stdout st ++ [error_line filepath e])
                   (opened st ++ [filepath]))) /\
  run con fs walk =
    and_then (scan_files con fs before init)
      (fun st =>
         if con (stdout st) (error_line filepath e)
         then scan_files con fs after
                (mkState (issues st)
                         (stdout st ++ [error_line filepath e])
                         (opened st ++ [filepath]))
         else Raised (mkState (issues st) (stdout st)
                              (opened st ++ [filepath]))) /\
  (forall st, run con fs walk = Done st ->
     stdout st =
       flat_map (file_output fs) before
         ++ error_line filepath e :: flat_map (file_output fs) after /\
     issues st =
       flat_map (file_issues fs) before ++ flat_map (file_issues fs) after /\
     opened st = before ++ filepath :: after).
Proof.
  intros Hsel Hfail. split; [|split; [|split]].
  - apply contains_iff. exists (str "Error reading "), (str ": " ++ e).
    reflexivity.
  - intros st H. unfold scan_file, print. now rewrite Hfail, H.
  - rewrite run_spec, Hsel, scan_files_app.
    destruct (scan_files con fs before init) as [st|st]; [|reflexivity].
    cbn [and_then]. rewrite scan_files_cons.
    unfold scan_file, print. rewrite Hfail.
    now destruct (con (stdout st) (error_line filepath e)).
  - intros st H. apply run_done in H. subst st. rewrite Hsel.
    cbn [stdout issues opened]. rewrite !flat_map_app. cbn [flat_map].
    unfold file_output at 2. unfold file_issues at 2. rewrite Hfail.
    auto.
Qed.

Lemma C5_witness :
  let fs := fun p : pystr =>
              if endswith (str "B.tsx") p
              then ReadFail (str "[Errno 13] Permission denied")
              else ReadOk (str "<View>x</View>") in
  let walk := [(str "/app/src", @nil pystr,
                [str "A.tsx"; str "B.tsx"; str "C.tsx"])] in
  run console_strict fs walk =
    Done (mkState
            [mkIssue (str "/app/src/A.tsx") 1 (str "<View>x</View>");
             mkIssue (str "/app/src/C.tsx") 1 (str "<View>x</View>")]
            [str "Error reading /app/src/B.tsx: [Errno 13] Permission denied"]
            [str "/app/src/A.tsx"; str "/app/src/B.tsx";
             str "/app/src/C.tsx"]).
Proof.
  intros fs walk.
  destruct (@C5_read_failure_is_local console_strict fs walk
              [str "/app/src/A.tsx"] [str "/app/src/C.tsx"]
              (str "/app/src/B.tsx") (str "[Errno 13] Permission denied")
              eq_refl eq_refl) as (_ & _ & Hrun & _).
  rewrite Hrun. vm_compute. reflexivity.
Defined.

(** C6, as stated, fails: the markers are looked for in the directory path
    [root], not in the path of the file.  A file whose own name contains a
    marker, in a directory whose path contains none, is opened and
    reported. *)
Lemma C6_counterexample :
  let root := str "/home/runner/workspace/clarity-tech-app/src/utils" in
  let filepath := path_join root (str "buildQuery.tsx") in
  let fs := fun _ : pystr => ReadOk (str "<View>x</View>") in
  let walk := [(root, @nil pystr, [str "buildQuery.tsx"])] in
  contains (str "build") filepath = true /\
  run console_ok fs walk =
    Done (mkState [mkIssue filepath 1 (str "<View>x</View>")] []
                  [filepath]) /\
  find_text_in_views console_ok fs walk =
    Some [mkIssue filepath 1 (str "<View>x</View>")].
Proof. vm_compute. intuition. Qed.

(** C6, amended: when the path of a directory yielded by the walk contains
    [node_modules], [.git] or [build] as a substring, none of the files
    listed for that directory is opened and none contributes an Issue: the
    run is the same as without that directory.  When the directory path
    contains none of the three, every listed file with one of the four
    extensions is opened by a run that ends normally, and its Issues are
    reported, whatever the file's own name contains. *)
Theorem C6_excluded_directory_skipped (con : console) (fs : filesystem) :
  (forall before after root dirs files,
     contains (str "node_modules") root = true \/
     contains (str ".git") root = true \/
     contains (str "build") root = true ->
     (forall st, visit_dir con fs st (root, dirs, files) = Done st) /\
     run con fs (before ++ (root, dirs, files) :: after) =
     run con fs (before ++ after)) /\
  (forall walk root dirs files f st,
     In (root, dirs, files) walk -> In f files ->
     contains (str "node_modules") root = false ->
     contains (str ".git") root = false ->
     contains (str "build") root = false ->
     has_ext f = true ->
     run con fs walk = Done st ->
     In (path_join root f) (opened st) /\
     forall text iss,
       fs (path_join root f) = ReadOk text ->
       In iss (scan_content (path_join root f) text []) ->
       In iss (issues st)).
Proof.
  split.
  - intros before after root dirs files H.
    assert (X : excluded root = true).
    { unfold excluded. destruct H as [->|[->| ->]];
        rewrite ?orb_true_r; reflexivity. }
    assert (V : forall st, visit_dir con fs st (root, dirs, files) = Done st)
      by (intros st; unfold visit_dir; now rewrite X).
    split; [exact V|].
    unfold run. rewrite !for_each_app.
    match goal with
    | |- and_then ?r _ = _ => destruct r; [|reflexivity]
    end.
    cbn [and_then for_each]. now rewrite V.
  - intros walk root dirs files f st Hw Hf N G B E R.
    assert (X : excluded root = false)
      by (unfold excluded; now rewrite N, G, B).
    pose proof (@selected_intro walk root dirs files f Hw Hf X E) as S.
    apply run_done in R. subst st. cbn [opened issues].
    split; [exact S|]. intros text iss Rd Hin.
    apply in_flat_map. exists (path_join root f). split; [exact S|].
    unfold file_issues. now rewrite Rd.
Qed.

Lemma C6_witness :
  let fs := fun _ : pystr => ReadOk (str "<View>x</View>") in
  let skipped := (str "/app/node_modules/pkg", @nil pystr,
                  [str "View.tsx"]) in
  let kept_dir := (str "/app/src", @nil pystr, [str "build.tsx"]) in
  run console_ok fs [skipped; kept_dir] = run console_ok fs [kept_dir] /\
  run console_ok fs [skipped; kept_dir] =
    Done (mkState [mkIssue (str "/app/src/build.tsx") 1
                     (str "<View>x</View>")]
                  [] [str "/app/src/build.tsx"]) /\
  In (str "/app/src/build.tsx")
     (opened (mkState [mkIssue (str "/app/src/build.tsx") 1
                         (str "<View>x</View>")]
                      [] [str "/app/src/build.tsx"])).
Proof.
  intros fs skipped kept_dir.
  assert (H : run console_ok fs ([] ++ skipped :: [kept_dir])
              = run console_ok fs ([] ++ [kept_dir])).
  { apply (proj1 (C6_excluded_directory_skipped console_ok fs)).
    left. vm_compute. reflexivity. }
  assert (R : run console_ok fs [skipped; kept_dir] =
              Done (mkState [mkIssue (str "/app/src/build.tsx") 1
                               (str "<View>x</View>")]
                            [] [str "/app/src/build.tsx"]))
    by (vm_compute; reflexivity).
  split; [exact H|]. split; [exact R|].
  apply (proj1 (proj2 (C6_excluded_directory_skipped console_ok fs)
                  [skipped; kept_dir] (str "/app/src") [] [str "build.tsx"]
                  (str "build.tsx") _
                  (or_intror (or_introl eq_refl)) (or_introl eq_refl)
                  eq_refl eq_refl eq_refl eq_refl R)).
Defined.

(** C9: the opening-tag pattern asks for no word boundary after [<View]: a
    tag whose name only begins with [View] opens a region that runs to the
    next [</View>], and that region can produce an Issue. *)
Theorem C9_longer_tag_name_opens_region (filepath : pystr) :
  finditer view_pattern (str "<Viewport>hello</View>") =
    [mkMatch 0 [open_tag; str "port"; str ">"; str "hello"; close_tag]] /\
  scan_content filepath (str "<Viewport>hello</View>") [] =
    [mkIssue filepath 1 (str "<Viewport>hello</View>")] /\
  finditer view_pattern (str "<ViewShot attr>snap</ViewShot><View></View>") =
    [mkMatch 0 [open_tag; str "Shot attr"; str ">";
                str "snap</ViewShot><View>"; close_tag]] /\
  scan_content filepath
    (str "<ViewShot attr>snap</ViewShot><View></View>") [] =
    [mkIssue filepath 1 (str "<ViewShot attr>snap</ViewShot><View></View>")].
Proof. vm_compute. intuition. Qed.

(** C10: [<View />] is matched as an opening tag: with a closing tag later in
    the file, the region runs from the self-closing tag to that closing tag,
    and the Issue it produces carries the line of the self-closing tag. *)
Theorem C10_self_closing_opens_region (filepath : pystr) :
  let text := str "<Text>a</Text>" ++ [nl] ++ str "<View />" ++ [nl]
              ++ str "<Text>hi</Text>" ++ [nl] ++ str "<View></View>" in
  let region := str "<View />" ++ [nl] ++ str "<Text>hi</Text>" ++ [nl]
                ++ str "<View></View>" in
  finditer view_pattern text =
    [mkMatch 15 [open_tag; str " /"; str ">";
                 [nl] ++ str "<Text>hi</Text>" ++ [nl] ++ str "<View>";
                 close_tag]] /\
  count nl (firstn 15 text) = 1 /\
  scan_content filepath text [] = [mkIssue filepath 2 region].
Proof. vm_compute. intuition. Qed.

(* ------------------------------------------------------------------ *)
(** ** Further properties: the walk *)

Lemma startswith_weaken (l s t : pystr) :
  startswith l s = true -> startswith l (s ++ t) = true.
Proof.
  intros H. apply startswith_iff in H as [r ->].
  rewrite <- app_assoc. apply startswith_app.
Qed.

Lemma endswith_app (l x s : pystr) :
  endswith l s = true -> endswith l (x ++ s) = true.
Proof.
  unfold endswith. intros H. rewrite rev_app_distr.
  now apply startswith_weaken.
Qed.

Lemma contains_app (l s x y : pystr) :
  contains l s = true -> contains l (x ++ s ++ y) = true.
Proof.
  intros H. apply contains_iff in H as (pre & post & ->).
  apply contains_iff. exists (x ++ pre), (post ++ y).
  now rewrite <- !app_assoc.
Qed.

(** The joined path ends with the file name. *)
Lemma path_join_tail (root f : pystr) :
  exists x, path_join root f = x ++ f.
Proof.
  unfold path_join. destruct (startswith (str "/") f); [now exists []|].
  destruct (_ || _); [now exists root|].
  exists (root ++ str "/"). now rewrite <- app_assoc.
Qed.

Lemma has_ext_path_join (root f : pystr) :
  has_ext f = true -> has_ext (path_join root f) = true.
Proof.
  destruct (path_join_tail root f) as [x ->]. unfold has_ext.
  rewrite !orb_true_iff.
  intros [[[H|H]|H]|H]; apply (@endswith_app _ x) in H; auto.
Qed.

Lemma selected_in (walk : list entry) (fp : pystr) :
  In fp (selected walk) ->
  exists root dirs files f,
    In (root, dirs, files) walk /\ In f files /\
    excluded root = false /\ has_ext f = true /\ fp = path_join root f.
Proof.
  unfold selected. intros H.
  apply in_flat_map in H as ([[root dirs] files] & Hin & H).
  destruct (excluded root) eqn:X; [contradiction|].
  apply in_map_iff in H as (f & <- & H). apply filter_In in H as [Hf He].
  now exists root, dirs, files, f.
Qed.

(** X1: a file whose name does not end in [.tsx], [.jsx], [.ts] or [.js] is
    passed over: the run is the same as if the directory did not list it. *)
Theorem X1_other_extension_ignored (con : console) (fs : filesystem)
    (before after : list entry) (root : pystr)
    (dirs files1 files2 : list pystr) (f : pystr) :
  has_ext f = false ->
  run con fs (before ++ (root, dirs, files1 ++ f :: files2) :: after) =
  run con fs (before ++ (root, dirs, files1 ++ files2) :: after).
Proof.
  intros H. rewrite !run_spec.
  assert (E : selected (before ++ (root, dirs, files1 ++ f :: files2) :: after)
              = selected (before ++ (root, dirs, files1 ++ files2) :: after)).
  { rewrite !selected_app. f_equal.
    change ((root, dirs, files1 ++ f :: files2) :: after)
      with ([(root, dirs, files1 ++ f :: files2)] ++ after).
    change ((root, dirs, files1 ++ files2) :: after)
      with ([(root, dirs, files1 ++ files2)] ++ after).
    rewrite !selected_app. f_equal. unfold selected. cbn [flat_map].
    destruct (excluded root); [reflexivity|].
    rewrite !filter_app. cbn [filter]. now rewrite H. }
  now rewrite E.
Qed.

Lemma X1_witness :
  let fs := fun _ : pystr => ReadOk (str "<View>x</View>") in
  run console_strict fs
      [(str "/app/src", @nil pystr,
        [str "App.tsx"; str "notes.json"; str "util.js"])] =
  run console_strict fs
      [(str "/app/src", @nil pystr, [str "App.tsx"; str "util.js"])].
Proof.
  intros fs.
  exact (@X1_other_extension_ignored console_strict fs [] []
           (str "/app/src") [] [str "App.tsx"] [str "util.js"]
           (str "notes.json") eq_refl).
Defined.

(** X2: every Issue a run holds, whether it ends normally and returns them
    or is cut short by a [print] that raises, names a path that the run
    opened and read, built from a directory that is not excluded and a file
    name with one of the four extensions (so the path itself ends in that
    extension), and the Issue is one of those found in that file's
    content. *)
Theorem X2_issue_provenance (con : console) (fs : filesystem)
    (walk : list entry) (iss : Issue) :
  In iss (issues (state_of (run con fs walk))) ->
  exists root dirs files f text,
    In (root, dirs, files) walk /\ In f files /\
    excluded root = false /\ has_ext f = true /\
    file iss = path_join root f /\ has_ext (file iss) = true /\
    In (file iss) (opened (state_of (run con fs walk))) /\
    fs (file iss) = ReadOk text /\
    In iss (scan_content (file iss) text []).
Proof.
  rewrite run_spec.
  destruct (scan_files_reach con fs (selected walk) init)
    as (l1 & l2 & Hsel & I & O).
  rewrite I, O. cbn [issues opened init app].
  intros H. apply in_flat_map in H as (fp & Hl1 & H).
  unfold file_issues in H. destruct (fs fp) as [text|e] eqn:R; [|contradiction].
  destruct (scan_content_in _ _ _ H) as (m & _ & _ & E).
  assert (F : file iss = fp) by (now rewrite E).
  assert (Hin : In fp (selected walk))
    by (rewrite Hsel; apply in_or_app; now left).
  destruct (selected_in _ _ Hin)
    as (root & dirs & files & f & ? & ? & ? & ? & P).
  exists root, dirs, files, f, text. rewrite F.
  repeat split; auto. rewrite P. now apply has_ext_path_join.
Qed.

Lemma X2_witness :
  let fs := fun _ : pystr => ReadOk (str "<View>x</View>") in
  let walk := [(str "/app/src", @nil pystr, [str "App.tsx"; str "a.css"])] in
  let iss := mkIssue (str "/app/src/App.tsx") 1 (str "<View>x</View>") in
  find_text_in_views console_strict fs walk = Some [iss] /\
  exists root dirs files f text,
    In (root, dirs, files) walk /\ In f files /\
    excluded root = false /\ has_ext f = true /\
    file iss = path_join root f /\ has_ext (file iss) = true /\
    In (file iss) (opened (state_of (run console_strict fs walk))) /\
    fs (file iss) = ReadOk text /\
    In iss (scan_content (file iss) text []).
Proof.
  intros fs walk iss.
  assert (Hin : In iss (issues (state_of (run console_strict fs walk))))
    by (vm_compute; left; reflexivity).
  split; [vm_compute; reflexivity|].
  exact (X2_issue_provenance console_strict fs walk iss Hin).
Defined.

(** X3: the loop skips an excluded directory with [continue] and does not
    prune [dirs]; the directories below it are skipped all the same, because
    the path of a subdirectory contains the path it was joined from. *)
Theorem X3_excluded_descendants (root d : pystr) :
  excluded root = true -> startswith (str "/") d = false ->
  excluded (path_join root d) = true.
Proof.
  intros X D. unfold path_join. rewrite D.
  assert (W : forall y, excluded (root ++ y) = true).
  { intros y. unfold excluded in *. rewrite !orb_true_iff in *.
    destruct X as [[H|H]|H]; apply (@contains_app _ _ [] y) in H; auto. }
  destruct (_ || _); [apply W|apply W].
Qed.

Lemma X3_witness :
  excluded (str "/app/node_modules") = true /\
  excluded (path_join (str "/app/node_modules") (str "react")) = true.
Proof.
  split; [reflexivity|].
  exact (@X3_excluded_descendants (str "/app/node_modules") (str "react")
           eq_refl eq_refl).
Defined.

(* ------------------------------------------------------------------ *)
(** ** Further properties: regions, lines and snippets *)

Lemma count_app (c : char) (s t : pystr) :
  count c (s ++ t) = count c s + count c t.
Proof. unfold count. now rewrite filter_app, length_app. Qed.

Lemma count_firstn_le (c : char) (s : pystr) (i j : nat) :
  i <= j -> count c (firstn i s) <= count c (firstn j s).
Proof.
  revert i j. induction s as [|a s IH]; intros i j H.
  - now rewrite !firstn_nil.
  - destruct i as [|i]; [unfold count; cbn [firstn filter length]; lia|].
    destruct j as [|j]; [lia|].
    specialize (IH i j). unfold count in *. cbn [firstn filter].
    destruct (N.eqb c a); cbn [length]; lia.
Qed.

Lemma count_firstn_all (c : char) (s : pystr) (i : nat) :
  count c (firstn i s) <= count c s.
Proof.
  rewrite <- (firstn_skipn i s) at 2. rewrite count_app. lia.
Qed.

Lemma ordered_lower (lo : nat) (ms : list Match) (m : Match) :
  ordered lo ms -> In m ms -> lo <= m_start m.
Proof.
  revert lo. induction ms as [|m0 r IH]; intros lo; simpl; [easy|].
  intros [H O] [<-|Hin]; [exact H|].
  apply IH in O; auto. unfold m_end in O. lia.
Qed.

Lemma ordered_filter (f : Match -> bool) (lo : nat) (ms : list Match) :
  ordered lo ms -> ordered lo (filter f ms).
Proof.
  revert lo. induction ms as [|m r IH]; intros lo; simpl; [auto|].
  intros [H O]. destruct (f m); simpl.
  - split; auto.
  - apply IH. eapply ordered_weaken; [|exact O]. unfold m_end. lia.
Qed.

Lemma ordered_lines (text : pystr) (lo : nat) (ms : list Match) :
  ordered lo ms -> StronglySorted le (map (line_num text) ms).
Proof.
  revert lo. induction ms as [|m r IH]; intros lo; simpl; [constructor|].
  intros [H O]. constructor; [now apply IH in O|].
  apply Forall_forall. intros l Hl. apply in_map_iff in Hl as (m' & <- & Hin).
  pose proof (@ordered_lower _ _ _ O Hin) as Hle. unfold m_end in Hle.
  unfold line_num. apply Nat.add_le_mono_r, count_firstn_le. lia.
Qed.

(** Each region is at least as long as [<View></View>] and lies within the
    text. *)
Lemma region_extent (text : pystr) (m : Match) :
  In m (finditer view_pattern text) ->
  13 <= length (group0 m) /\ m_end m <= length text.
Proof.
  intros H. destruct (finditer_sound _ _ _ H) as (pre & post & E & St & _ & _).
  destruct (view_region _ _ H) as (_ & attrs & body & _ & _ & _ & P & _).
  unfold m_end, group0 in *. rewrite P in *. rewrite St.
  apply (f_equal (@length char)) in E. rewrite !length_app in E.
  split; [|lia].
  cbn [concat]. rewrite !length_app.
  change (length open_tag) with 5. change (length close_tag) with 7.
  change (length (str ">")) with 1. lia.
Qed.

Lemma ordered_room (L lo : nat) (ms : list Match) :
  ordered lo ms ->
  (forall m, In m ms -> 13 <= length (group0 m) /\ m_end m <= L) ->
  ms = [] \/ lo + 13 * length ms <= L.
Proof.
  revert lo. induction ms as [|m r IH]; intros lo O H; [now left|right].
  destruct O as [Hlo O].
  destruct (H m (or_introl eq_refl)) as [H13 HL].
  destruct (IH _ O (fun m' Hm' => H m' (or_intror Hm'))) as [->|Hr].
  - simpl. unfold m_end in HL. lia.
  - unfold m_end in *. simpl length. lia.
Qed.

(** X4: a region whose body holds no character of [[a-zA-Z0-9]] once the
    brace spans and the tag spans are removed and whitespace is trimmed
    appends nothing: expression-only bodies, punctuation and text outside
    ASCII letters and digits are not reported. *)
Theorem X4_no_residue_no_issue (filepath text : pystr)
    (acc : list Issue) (m : Match) :
  existsb alnum
    (strip (sub_empty tag_pattern (sub_empty brace_pattern (group1 m))))
    = false ->
  process_match filepath text acc m = acc.
Proof.
  intros H. rewrite <- cleaned_body in H.
  rewrite process_match_spec. unfold suspicious, view_content.
  now rewrite H.
Qed.

Lemma X4_witness :
  let text := str "<View>{count} %</View>" in
  let m := mkMatch 0 [open_tag; []; str ">"; str "{count} %"; close_tag] in
  finditer view_pattern text = [m] /\
  process_match (str "App.tsx") text [] m = [].
Proof.
  intros text m. split; [vm_compute; reflexivity|].
  apply X4_no_residue_no_issue. vm_compute. reflexivity.
Defined.

(** X5: a text without [<View], or without [</View>], has no region and
    yields no Issue; the empty file is one such text. *)
Theorem X5_no_tag_no_region (text : pystr) :
  contains open_tag text = false \/ contains close_tag text = false ->
  finditer view_pattern text = [] /\
  forall filepath acc, scan_content filepath text acc = acc.
Proof.
  intros H.
  assert (E : finditer view_pattern text = []).
  { destruct (finditer view_pattern text) as [|m r] eqn:F; [reflexivity|].
    exfalso.
    assert (Hin : In m (finditer view_pattern text))
      by (rewrite F; now left).
    destruct (view_region _ _ Hin)
      as (pre & attrs & body & post & -> & _).
    destruct H as [H|H].
    - assert (C : contains open_tag
                    (pre ++ open_tag ++ attrs ++ str ">" ++ body
                         ++ close_tag ++ post) = true)
        by (apply contains_iff; eauto).
      congruence.
    - assert (C : contains close_tag
                    (pre ++ open_tag ++ attrs ++ str ">" ++ body
                         ++ close_tag ++ post) = true).
      { apply contains_iff.
        exists (pre ++ open_tag ++ attrs ++ str ">" ++ body), post.
        now rewrite <- !app_assoc. }
      congruence. }
  split; [exact E|]. intros filepath acc. unfold scan_content.
  now rewrite E.
Qed.

Lemma X5_witness :
  let text := str "<View style={s}><Text>open, never closed</Text>" in
  finditer view_pattern text = [] /\
  forall filepath acc, scan_content filepath text acc = acc.
Proof.
  intros text. apply X5_no_tag_no_region. right. vm_compute. reflexivity.
Defined.

(** X6: each span the tag substitution removes runs from a [<] to the first
    [>] after it, with no [>] in between, and the scan cuts the text into
    kept characters and such spans.  The class [[^>]] admits [<] and the line
    break, so a span can start at an unclosed [<] and can run over several
    lines. *)
Theorem X6_tag_span_to_first_gt (s : pystr) :
  (forall m, In m (finditer tag_pattern s) ->
     exists pre inner post,
       s = pre ++ str "<" ++ inner ++ str ">" ++ post /\
       m_start m = length pre /\
       group0 m = str "<" ++ inner ++ str ">" /\
       forallb not_gt inner = true) /\
  rebuild (tokens tag_pattern 0 0 s) = s /\
  sub_empty tag_pattern s = kept (tokens tag_pattern 0 0 s).
Proof.
  split; [|split; [apply tokens_rebuild|reflexivity]].
  intros m H. apply finditer_sound in H as (pre & post & E & St & _ & M).
  apply tag_match_inv in M as (inner & post' & P & E' & Hin).
  exists pre, inner, post'. repeat split; auto.
  - rewrite E. f_equal. exact E'.
  - unfold group0. rewrite P. reflexivity.
Qed.

Lemma X6_witness :
  let s := str "a < b <Text" ++ [nl] ++ str "  id=1>c" in
  let m := mkMatch 2 [str "<"; str " b <Text" ++ [nl] ++ str "  id=1";
                      str ">"] in
  finditer tag_pattern s = [m] /\
  sub_empty tag_pattern s = str "a c" /\
  exists pre inner post,
     s = pre ++ str "<" ++ inner ++ str ">" ++ post /\
     m_start m = length pre /\
     group0 m = str "<" ++ inner ++ str ">" /\
     forallb not_gt inner = true.
Proof.
  intros s m.
  assert (F : finditer tag_pattern s = [m]) by (vm_compute; reflexivity).
  split; [exact F|]. split; [vm_compute; reflexivity|].
  apply (proj1 (X6_tag_span_to_first_gt s) m). rewrite F. now left.
Defined.

(** X7: every snippet starts with [<View] and has between 13 and 103
    characters; a snippet of at most 100 characters is a whole region and
    ends with [</View>]. *)
Theorem X7_snippet_shape (filepath text : pystr) (iss : Issue) :
  In iss (scan_content filepath text []) ->
  startswith open_tag (content iss) = true /\
  13 <= length (content iss) <= 103 /\
  (length (content iss) <= 100 -> endswith close_tag (content iss) = true).
Proof.
  intros H. apply scan_content_in in H as (m & Hin & _ & ->).
  destruct (region_extent _ _ Hin) as [H13 _].
  destruct (view_region _ _ Hin) as (_ & attrs & body & _ & _ & _ & P & _).
  unfold issue_of. cbn [content]. unfold snippet.
  assert (G : group0 m = open_tag ++ attrs ++ str ">" ++ body ++ close_tag)
    by (unfold group0; rewrite P; cbn [concat]; now rewrite app_nil_r).
  destruct (100 <? length (group0 m)) eqn:L.
  - apply Nat.ltb_lt in L. rewrite length_app, length_firstn.
    change (length (str "...")) with 3.
    split; [|split; [lia|intros; lia]].
    rewrite G. reflexivity.
  - apply Nat.ltb_ge in L.
    split; [rewrite G; apply startswith_app|]. split; [lia|].
    intros _. rewrite G. unfold endswith.
    rewrite !rev_app_distr, <- !app_assoc. apply startswith_app.
Qed.

Lemma X7_witness :
  let text := str "<View>" ++ repeat 120%N 101 ++ str "</View>" in
  let iss := mkIssue (str "App.tsx") 1
               (str "<View>" ++ repeat 120%N 94 ++ str "...") in
  In iss (scan_content (str "App.tsx") text []) /\
  startswith open_tag (content iss) = true /\
  13 <= length (content iss) <= 103 /\
  (length (content iss) <= 100 -> endswith close_tag (content iss) = true).
Proof.
  intros text iss.
  assert (Hin : In iss (scan_content (str "App.tsx") text []))
    by (vm_compute; left; reflexivity).
  split; [exact Hin|].
  exact (X7_snippet_shape (str "App.tsx") text iss Hin).
Defined.

(** X8: the Issues of one file come in the order of their regions: their
    line numbers never decrease, and each lies between 1 and the number of
    lines of the text. *)
Theorem X8_lines_in_order (filepath text : pystr) :
  StronglySorted le (map line (scan_content filepath text [])) /\
  forall iss, In iss (scan_content filepath text []) ->
              1 <= line iss <= count nl text + 1.
Proof.
  split.
  - rewrite scan_content_spec. cbn [app]. rewrite map_map.
    change (fun x => line (issue_of filepath text x)) with (line_num text).
    apply (@ordered_lines text 0), ordered_filter, finditer_ordered.
  - intros iss H. apply scan_content_in in H as (m & _ & _ & ->).
    cbn [issue_of line]. unfold line_num.
    pose proof (count_firstn_all nl text (m_start m)). lia.
Qed.

Lemma X8_witness :
  let text := str "<View>a</View>" ++ [nl] ++ str "<View>b</View>" in
  map line (scan_content (str "App.tsx") text []) = [1; 2] /\
  StronglySorted le (map line (scan_content (str "App.tsx") text [])).
Proof.
  intros text. split; [vm_compute; reflexivity|].
  exact (proj1 (X8_lines_in_order (str "App.tsx") text)).
Defined.

(** X9: regions do not overlap and none is shorter than [<View></View>], so
    a text of [n] characters has at most [n / 13] regions and yields at most
    that many Issues. *)
Theorem X9_issue_count_bound (filepath text : pystr) :
  13 * length (finditer view_pattern text) <= length text /\
  length (scan_content filepath text []) <=
    length (finditer view_pattern text).
Proof.
  split.
  - destruct (@ordered_room (length text) 0 (finditer view_pattern text))
      as [E|H].
    + apply finditer_ordered.
    + apply region_extent.
    + rewrite E. simpl. lia.
    + lia.
  - rewrite scan_content_spec. cbn [app]. rewrite length_map.
    apply filter_length_le.
Qed.

(* ------------------------------------------------------------------ *)
(** ** Further properties: what the substitutions leave behind *)

Lemma kept_in (its : list item) (s : pystr) (pos skip : nat) (c : char) :
  In c (kept (tokens its pos skip s)) -> In c s.
Proof.
  revert pos skip. induction s as [|x t IH]; intros pos skip; [easy|].
  rewrite tokens_cons. destruct skip as [|k]; [|intros H; right; eauto].
  destruct (match_items its (x :: t)) as [ps|].
  - destruct (length (concat ps)); simpl.
    + intros [->|H]; [now left|right; eauto].
    + intros H; right; eauto.
  - simpl. intros [->|H]; [now left|right; eauto].
Qed.

Lemma unpaired_app_l (a b : char) (x y : pystr) :
  unpaired a b (x ++ y) -> unpaired a b y.
Proof. induction x as [|c x IH]; simpl; [auto|]. intros [_ H]. auto. Qed.

Lemma unpaired_app_r (a b : char) (y z : pystr) :
  unpaired a b (y ++ z) -> unpaired a b y.
Proof.
  induction y as [|c y IH]; simpl; [auto|]. intros [H U]. split; auto.
  intros E Hin. apply (H E), in_or_app. now left.
Qed.

Lemma unpaired_split (a b : char) (s pre post : pystr) :
  unpaired a b s -> s = pre ++ a :: post -> ~ In b post.
Proof.
  intros U ->. apply unpaired_app_l in U. destruct U as [H _]. now apply H.
Qed.

Lemma unpaired_absent (a b : char) (s : pystr) :
  ~ In a s -> unpaired a b s.
Proof.
  induction s as [|c t IH]; simpl; [auto|]. intros H. split.
  - intros ->. exfalso. apply H. now left.
  - apply IH. intros Hin. apply H. now right.
Qed.

(** Dropping characters cannot bring a [b] behind an [a]. *)
Lemma unpaired_kept (a b : char) (its : list item) (s : pystr)
    (pos skip : nat) :
  unpaired a b s -> unpaired a b (kept (tokens its pos skip s)).
Proof.
  revert pos skip. induction s as [|c t IH]; intros pos skip; [easy|].
  intros [H U]. rewrite tokens_cons.
  assert (K : forall k,
    unpaired a b (c :: kept (tokens its (S pos) k t))).
  { intros k. split; [|now apply IH].
    intros E Hin. apply (H E). eapply kept_in; eauto. }
  destruct skip as [|k]; [|now apply IH].
  destruct (match_items its (c :: t)) as [ps|]; [|apply K].
  destruct (length (concat ps)); [apply K|]. simpl. now apply IH.
Qed.

Section BracketSpans.

Variables (a b : char) (p : char -> bool).
Hypothesis Hp : forall c, p c = negb (c =? b)%N.

(** After the opening character the pattern matches exactly when a [b]
    follows somewhere. *)
Lemma tail_found (t : pystr) :
  In b t -> match_items [Greedy p; Lit [b]] t <> None.
Proof.
  induction t as [|c t IH]; [easy|].
  intros H. rewrite match_greedy, (@last_lit_head b), Hp.
  destruct (N.eqb_spec c b) as [->|Ne]; cbn [negb].
  - rewrite N.eqb_refl. discriminate.
  - destruct H as [->|H]; [congruence|].
    destruct (match_items [Greedy p; Lit [b]] t); [discriminate|].
    now apply IH in H.
Qed.

Lemma tail_needs (t : pystr) (ps : list pystr) :
  match_items [Greedy p; Lit [b]] t = Some ps -> In b t.
Proof.
  intros M. apply greedy_inv in M as (x & ps' & s' & _ & -> & _ & M).
  apply lit_inv in M as (_ & s'' & _ & -> & _).
  apply in_or_app. right. now left.
Qed.

(** What the substitution keeps holds no [a] with a [b] after it. *)
Lemma kept_unpaired (s : pystr) (pos skip : nat) :
  unpaired a b (kept (tokens (bracket_pattern a b p) pos skip s)).
Proof.
  revert pos skip. induction s as [|c t IH]; intros pos skip; [exact I|].
  rewrite tokens_cons. destruct skip as [|k]; [|apply IH].
  destruct (match_items (bracket_pattern a b p) (c :: t)) as [ps|] eqn:M.
  - destruct (length (concat ps)) as [|k] eqn:L; [|apply IH].
    exfalso. rewrite (@bracket_head a b p) in M.
    destruct (a =? c)%N; [|discriminate].
    destruct (match_items [Greedy p; Lit [b]] t); [|discriminate].
    injection M as <-. discriminate.
  - simpl. split; [|apply IH].
    intros -> Hin. apply kept_in in Hin.
    rewrite (@bracket_head a b p), N.eqb_refl in M.
    apply tail_found in Hin.
    destruct (match_items [Greedy p; Lit [b]] t); [discriminate|congruence].
Qed.

(** On such a text the substitution changes nothing. *)
Lemma unpaired_fixed (s : pystr) (pos : nat) :
  unpaired a b s -> kept (tokens (bracket_pattern a b p) pos 0 s) = s.
Proof.
  revert pos. induction s as [|c t IH]; intros pos; [reflexivity|].
  intros [H U]. rewrite tokens_cons.
  assert (M : match_items (bracket_pattern a b p) (c :: t) = None).
  { rewrite (@bracket_head a b p). destruct (a =? c)%N eqn:E; [|reflexivity].
    apply N.eqb_eq in E. subst c.
    destruct (match_items [Greedy p; Lit [b]] t) as [ps|] eqn:T;
      [|reflexivity].
    exfalso. apply (H eq_refl). eapply tail_needs; eauto. }
  rewrite M. simpl. f_equal. now apply IH.
Qed.

End BracketSpans.

Lemma strip_idempotent (s : pystr) : strip (strip s) = strip s.
Proof.
  destruct (strip_decompose s) as (ws1 & ws2 & H1 & H2 & E).
  rewrite E at 2. now rewrite strip_pad.
Qed.

Lemma cleaned_unpaired (vc : pystr) :
  unpaired 123%N 125%N (cleaned vc) /\ unpaired 60%N 62%N (cleaned vc).
Proof.
  unfold cleaned. cbv zeta.
  set (x := sub_empty tag_pattern (sub_empty brace_pattern vc)).
  destruct (strip_decompose x) as (ws1 & ws2 & _ & _ & E).
  assert (B : unpaired 123%N 125%N x).
  { apply unpaired_kept.
    apply (@kept_unpaired 123%N 125%N not_rbrace (fun c => eq_refl)). }
  assert (T : unpaired 60%N 62%N x)
    by apply (@kept_unpaired 60%N 62%N not_gt (fun c => eq_refl)).
  rewrite E in B, T.
  split; eapply unpaired_app_r, unpaired_app_l; eauto.
Qed.

(** X10: one pass is enough.  In the cleaned text no [{] has a [}] after
    it and no [<] has a [>] after it, so no complete expression or tag span
    is left, and running either substitution, or the whole cleaning, again
    changes nothing. *)
Theorem X10_cleaning_is_complete (vc : pystr) :
  (forall pre post, cleaned vc = pre ++ str "{" ++ post ->
                    ~ In 125%N post) /\
  (forall pre post, cleaned vc = pre ++ str "<" ++ post ->
                    ~ In 62%N post) /\
  sub_empty brace_pattern (cleaned vc) = cleaned vc /\
  sub_empty tag_pattern (cleaned vc) = cleaned vc /\
  cleaned (cleaned vc) = cleaned vc.
Proof.
  destruct (cleaned_unpaired vc) as [B T].
  assert (SB : sub_empty brace_pattern (cleaned vc) = cleaned vc)
    by (apply (@unpaired_fixed 123%N 125%N not_rbrace); auto).
  assert (ST : sub_empty tag_pattern (cleaned vc) = cleaned vc)
    by (apply (@unpaired_fixed 60%N 62%N not_gt); auto).
  split; [intros pre post E; eapply unpaired_split; eauto|].
  split; [intros pre post E; eapply unpaired_split; eauto|].
  split; [exact SB|]. split; [exact ST|].
  unfold cleaned at 1. cbv zeta. rewrite SB, ST.
  unfold cleaned. apply strip_idempotent.
Qed.

Lemma X10_witness :
  let vc := str "x < y {a} > z <b" in
  cleaned vc = str "x  z " ++ str "<" ++ str "b" /\
  ~ In 62%N (str "b") /\
  cleaned (cleaned vc) = cleaned vc.
Proof.
  intros vc.
  assert (E : cleaned vc = str "x  z " ++ str "<" ++ str "b")
    by (vm_compute; reflexivity).
  split; [exact E|]. split.
  - exact (proj1 (proj2 (X10_cleaning_is_complete vc)) _ _ E).
  - exact (proj2 (proj2 (proj2 (proj2 (X10_cleaning_is_complete vc))))).
Defined.

(* ------------------------------------------------------------------ *)
(** ** Further properties: bodies that are and are not reported *)


Lemma alnum_not_space (c : char) : alnum c = true -> isspace c = false.
Proof.
  unfold alnum, isspace. intros H.
  rewrite !orb_true_iff, !andb_true_iff, !N.leb_le in H.
  apply not_true_is_false.
  rewrite !orb_true_iff, !andb_true_iff, !N.leb_le, !N.eqb_eq. lia.
Qed.

Lemma spaces_not_alnum (ws : pystr) :
  forallb isspace ws = true -> existsb alnum ws = false.
Proof.
  induction ws as [|c ws IH]; [reflexivity|]. simpl.
  intros H. apply andb_true_iff in H as [Hc H]. rewrite (IH H).
  destruct (alnum c) eqn:A; [|reflexivity].
  apply alnum_not_space in A. congruence.
Qed.

(** Trimming removes no alphanumeric character. *)
Lemma strip_keeps_alnum (s : pystr) :
  existsb alnum (strip s) = existsb alnum s.
Proof.
  destruct (strip_decompose s) as (ws1 & ws2 & H1 & H2 & E).
  rewrite E at 2. rewrite !existsb_app.
  rewrite (spaces_not_alnum _ H1), (spaces_not_alnum _ H2).
  now rewrite orb_false_r.
Qed.

(** What decides a region: an alphanumeric character in what the two
    substitutions leave of its body. *)
Lemma residue_decides (filepath text : pystr) (acc : list Issue)
    (m : Match) :
  process_match filepath text acc m =
  if existsb alnum
       (sub_empty tag_pattern (sub_empty brace_pattern (group1 m)))
  then acc ++ [mkIssue filepath (line_num text m) (snippet m)]
  else acc.
Proof.
  rewrite process_match_spec. unfold suspicious, view_content.
  now rewrite cleaned_body, strip_keeps_alnum.
Qed.

(** X11: a region whose body is one brace expression, with or without
    whitespace around it, is not reported, whatever the expression holds. *)
Theorem X11_expression_body_not_reported (filepath text : pystr)
    (acc : list Issue) (m : Match) (ws1 e ws2 : pystr) :
  group1 m = ws1 ++ str "{" ++ e ++ str "}" ++ ws2 ->
  forallb isspace ws1 = true -> forallb isspace ws2 = true ->
  forallb not_rbrace e = true ->
  process_match filepath text acc m = acc.
Proof.
  intros G H1 H2 He. rewrite residue_decides, G.
  replace (ws1 ++ str "{" ++ e ++ str "}" ++ ws2)
    with (ws1 ++ (123%N :: e ++ [125%N]) ++ ws2)
    by (cbn [app str]; now rewrite <- app_assoc).
  change brace_pattern with (bracket_pattern 123%N 125%N not_rbrace).
  rewrite (@sub_pad 123%N 125%N not_rbrace eq_refl eq_refl) by assumption.
  assert (E : sub_empty (bracket_pattern 123%N 125%N not_rbrace)
                (123%N :: e ++ [125%N]) = []).
  { unfold sub_empty. now rewrite kept_span. }
  rewrite E. cbn [app].
  change tag_pattern with (bracket_pattern 60%N 62%N not_gt).
  assert (W : forallb isspace (ws1 ++ ws2) = true)
    by (now rewrite forallb_app, H1, H2).
  unfold sub_empty.
  rewrite (@kept_spaces 60%N 62%N not_gt eq_refl eq_refl (ws1 ++ ws2) 0 0 W).
  cbn [skipn]. now rewrite spaces_not_alnum.
Qed.

Lemma X11_witness :
  let text := str "<View> {user.name} </View>" in
  let m := mkMatch 0 [open_tag; []; str ">"; str " {user.name} ";
                      close_tag] in
  finditer view_pattern text = [m] /\
  process_match (str "App.tsx") text [] m = [].
Proof.
  intros text m. split; [vm_compute; reflexivity|].
  exact (@X11_expression_body_not_reported (str "App.tsx") text [] m
           (str " ") (str "user.name") (str " ")
           eq_refl eq_refl eq_refl eq_refl).
Defined.

(** X12: text wrapped in an inner element is reported all the same: the tag
    substitution removes the inner tags and leaves their text, so a body
    [<t1>w<t2>] whose text [w] holds an alphanumeric character appends an
    Issue.  (Stated for tags and text without [{] and text without [<].) *)
Theorem X12_wrapped_text_is_reported (filepath text : pystr)
    (acc : list Issue) (m : Match) (t1 w t2 : pystr) :
  group1 m = str "<" ++ t1 ++ str ">" ++ w ++ str "<" ++ t2 ++ str ">" ->
  forallb not_gt t1 = true -> forallb not_gt t2 = true ->
  ~ In 60%N w -> ~ In 123%N (t1 ++ w ++ t2) ->
  existsb alnum w = true ->
  process_match filepath text acc m =
  acc ++ [mkIssue filepath (line_num text m) (snippet m)].
Proof.
  intros G H1 H2 Hw Hb Ha. rewrite residue_decides, G.
  set (body := str "<" ++ t1 ++ str ">" ++ w ++ str "<" ++ t2 ++ str ">").
  assert (B : sub_empty brace_pattern body = body).
  { apply (@unpaired_fixed 123%N 125%N not_rbrace), unpaired_absent.
    unfold body. cbn [str app map String.list_ascii_of_string].
    intros [D|Hin]; [discriminate D|].
    apply in_app_or in Hin as [Hin|[D|Hin]]; try discriminate D.
    - apply Hb, in_or_app. now left.
    - apply in_app_or in Hin as [Hin|[D|Hin]]; try discriminate D.
      + apply Hb, in_or_app. right. apply in_or_app. now left.
      + apply in_app_or in Hin as [Hin|[D|[]]]; try discriminate D.
        apply Hb, in_or_app. right. apply in_or_app. now right. }
  assert (T : sub_empty tag_pattern body = w).
  { unfold sub_empty, body.
    change tag_pattern with (bracket_pattern 60%N 62%N not_gt).
    change (str "<" ++ t1 ++ str ">" ++ w ++ str "<" ++ t2 ++ str ">")
      with (60%N :: t1 ++ 62%N :: w ++ 60%N :: t2 ++ 62%N :: []).
    rewrite (@kept_span 60%N 62%N not_gt eq_refl) by assumption.
    rewrite (@kept_other 60%N 62%N not_gt) by assumption.
    rewrite (@kept_span 60%N 62%N not_gt eq_refl) by assumption.
    apply app_nil_r. }
  now rewrite B, T, Ha.
Qed.

Lemma X12_witness :
  let text := str "<View><Text>hello</Text></View>" in
  let m := mkMatch 0 [open_tag; []; str ">"; str "<Text>hello</Text>";
                      close_tag] in
  finditer view_pattern text = [m] /\
  process_match (str "App.tsx") text [] m = [mkIssue (str "App.tsx") 1 text].
Proof.
  intros text m. split; [vm_compute; reflexivity|].
  apply (@X12_wrapped_text_is_reported (str "App.tsx") text [] m
           (str "Text") (str "hello") (str "/Text")
           eq_refl eq_refl eq_refl);
    try reflexivity; vm_compute; intuition discriminate.
Defined.

(* ------------------------------------------------------------------ *)
(** ** Further properties: what the script prints *)

Lemma error_line_is_no_entry (fp e : pystr) :
  startswith (str "File: ") (error_line fp e) = false.
Proof. reflexivity. Qed.

Lemma error_lines_are_no_entries (errs : list pystr) :
  Forall (fun t => exists fp e, t = error_line fp e) errs ->
  filter (startswith (str "File: ")) errs = [].
Proof.
  induction 1 as [|t errs (fp & e & ->) _ IH]; [reflexivity|].
  cbn [filter]. now rewrite error_line_is_no_entry.
Qed.

Lemma entries_length (l : list Issue) :
  length (flat_map report_issue l) = 4 * length l.
Proof.
  induction l as [|i l IH]; [reflexivity|].
  cbn [flat_map]. rewrite length_app, IH. cbn [length report_issue]. lia.
Qed.

Lemma entry_filter (i : Issue) (r : list pystr) :
  filter (startswith (str "File: ")) (report_issue i ++ r) =
  (str "File: " ++ file i) :: filter (startswith (str "File: ")) r.
Proof.
  unfold report_issue. cbn [app filter].
  now rewrite (startswith_app (str "File: ") (file i)).
Qed.

(** The [File: ] calls among the first calls of the loop over the Issues
    are those of a first part of the Issues. *)
Lemma entries_prefix (l : list Issue) (p q : list pystr) :
  flat_map report_issue l = p ++ q ->
  exists l1 l2,
    l = l1 ++ l2 /\
    filter (startswith (str "File: ")) p =
      map (fun i => str "File: " ++ file i) l1 /\
    (q = [] -> l2 = []).
Proof.
  revert p. induction l as [|i l IH]; intros p E.
  - cbn in E. symmetry in E. apply app_eq_nil in E as [-> ->].
    now exists [], [].
  - cbn [flat_map] in E. unfold report_issue in E. cbn [app] in E.
    destruct p as [|x1 [|x2 [|x3 [|x4 p]]]]; cbn [app] in E.
    + exists [], (i :: l). repeat split; auto. intros ->. discriminate.
    + injection E as E1 E. subst x1. exists [i], l.
      repeat split; auto; try reflexivity. intros ->. discriminate.
    + injection E as E1 E2 E. subst x1 x2. exists [i], l.
      repeat split; auto; try reflexivity. intros ->. discriminate.
    + injection E as E1 E2 E3 E. subst x1 x2 x3. exists [i], l.
      repeat split; auto; try reflexivity. intros ->. discriminate.
    + injection E as E1 E2 E3 E4 E. subst x1 x2 x3 x4.
      destruct (IH p E) as (l1 & l2 & -> & F & Q).
      exists (i :: l1), l2. split; [reflexivity|split; [|exact Q]].
      cbn [map]. rewrite <- F. reflexivity.
Qed.

(** What a sequence of [print] calls leaves: a first part of the texts. *)
Lemma print_all_prefix (con : console) (texts out : list pystr) :
  exists p q,
    texts = p ++ q /\
    state_of (print_all con texts out) = out ++ p /\
    (forall o, print_all con texts out = Done o -> q = []).
Proof.
  revert out. induction texts as [|t r IH]; intros out.
  - exists [], []. cbn. now rewrite app_nil_r.
  - cbn [print_all]. unfold print. destruct (con out t).
    + destruct (IH (out ++ [t])) as (p & q & -> & S & D).
      exists (t :: p), q. rewrite S, <- app_assoc. auto.
    + exists [], (t :: r). cbn. rewrite app_nil_r.
      repeat split; auto. discriminate.
Qed.

(** The same for the whole report. *)
Lemma report_prefix (l : list Issue) (p q : list pystr) :
  report l = p ++ q ->
  exists l1 l2,
    l = l1 ++ l2 /\
    filter (startswith (str "File: ")) p =
      map (fun i => str "File: " ++ file i) l1 /\
    (q = [] -> l2 = []).
Proof.
  destruct l as [|i l]; unfold report; cbn [negb]; intros E.
  - exists [], []. repeat split; auto.
    destruct p as [|x p]; [reflexivity|].
    cbn [app] in E. injection E as E1 E. subst x.
    symmetry in E. apply app_eq_nil in E as [-> _]. reflexivity.
  - destruct p as [|x p]; cbn [app] in E.
    + exists [], (i :: l). repeat split; auto. intros ->. discriminate.
    + injection E as E1 E. subst x.
      destruct (@entries_prefix (i :: l) p q E) as (l1 & l2 & L & F & Q).
      exists l1, l2. repeat split; auto.
Qed.

(** X13: the script prints the Issues once each and in order, as far as it
    gets.  Among all its [print] calls, the read errors included, those
    whose text starts with [File: ] are the paths of a first part of the
    Issues found, one for one; when the script ends normally they are the
    paths of all the Issues returned, and the output is the error lines
    followed by the report.  The report is one call when nothing was found
    and otherwise a heading and four calls for each Issue. *)
Theorem X13_report_lists_every_issue (con : console) (fs : filesystem)
    (walk : list entry) :
  (exists l1 l2,
     issues (state_of (run con fs walk)) = l1 ++ l2 /\
     filter (startswith (str "File: ")) (state_of (main con fs walk)) =
       map (fun i => str "File: " ++ file i) l1 /\
     (forall out, main con fs walk = Done out ->
        l2 = [] /\ find_text_in_views con fs walk = Some l1 /\
        exists st, run con fs walk = Done st /\
                   out = stdout st ++ report (issues st))) /\
  forall l : list Issue,
    length (report l) =
    match l with
    | [] => 1
    | _ :: _ => 1 + 4 * length l
    end.
Proof.
  split.
  - unfold main, find_text_in_views.
    destruct (scan_files_prints con fs (selected walk) init)
      as (errs & E & F).
    rewrite <- run_spec in E. cbn [stdout init app] in E.
    apply error_lines_are_no_entries in F. rewrite <- E in F. clear E.
    destruct (run con fs walk) as [st|st]; cbn [state_of] in *.
    + destruct (print_all_prefix con (report (issues st)) (stdout st))
        as (p & q & R & S & D).
      destruct (report_prefix _ _ _ R) as (l1 & l2 & L & Fl & Q).
      exists l1, l2. split; [exact L|].
      rewrite S, filter_app, F. split; [exact Fl|].
      intros out H. pose proof (D _ H) as Hq. subst q.
      rewrite (Q eq_refl), app_nil_r in L. rewrite app_nil_r in R.
      split; [now apply Q|]. split; [now rewrite L|].
      exists st. split; [reflexivity|].
      rewrite H in S. cbn [state_of] in S. now rewrite S, R.
    + exists [], (issues st). rewrite F.
      repeat split; auto; discriminate.
  - intros [|i l]; [reflexivity|].
    unfold report. cbn [negb length]. now rewrite entries_length.
Qed.

(* ------------------------------------------------------------------ *)
(** ** Further properties: how the pieces compose *)

Lemma flat_map_agree (A B : Type) (f g : A -> list B) (l : list A) :
  (forall x, In x l -> f x = g x) -> flat_map f l = flat_map g l.
Proof.
  induction l as [|x l IH]; intros H; [reflexivity|].
  cbn [flat_map]. rewrite (H x (or_introl eq_refl)), IH; [reflexivity|].
  intros y Hy. apply H. now right.
Qed.

Lemma scan_files_agree (con : console) (fs fs' : filesystem)
    (l : list pystr) (st : state) :
  (forall fp, In fp l -> fs fp = fs' fp) ->
  scan_files con fs l st = scan_files con fs' l st.
Proof.
  revert st. induction l as [|fp l IH]; intros st H; [reflexivity|].
  rewrite !scan_files_cons. unfold scan_file.
  rewrite <- (H fp (or_introl eq_refl)).
  assert (T : forall s, scan_files con fs l s = scan_files con fs' l s)
    by (intros s; apply IH; intros x Hx; apply H; now right).
  destruct (fs fp) as [text|e]; cbn [and_then]; [apply T|].
  destruct (print con (error_line fp e) (stdout st)); cbn [and_then];
    [apply T|reflexivity].
Qed.

(** X14: the directories of a walk are visited in turn and nothing but the
    state carries over: a walk in two parts is the first part followed, if
    it ends normally, by the second part from the state reached; a [print]
    that raises in the first part ends the run there; and a run that ends
    normally has the Issues, printed lines and opened files of the first
    part followed by those of the second, the files opened being the
    selected files, once each, in walk order. *)
Theorem X14_walk_parts_are_independent (con : console) (fs : filesystem)
    (w1 w2 : list entry) :
  run con fs (w1 ++ w2) =
    and_then (run con fs w1) (for_each (visit_dir con fs) w2) /\
  (forall st, run con fs w1 = Raised st ->
              run con fs (w1 ++ w2) = Raised st) /\
  (forall st, run con fs (w1 ++ w2) = Done st ->
     exists st1,
       run con fs w1 = Done st1 /\
       issues st = issues st1 ++ flat_map (file_issues fs) (selected w2) /\
       stdout st = stdout st1 ++ flat_map (file_output fs) (selected w2) /\
       opened st = opened st1 ++ selected w2 /\
       opened st = selected (w1 ++ w2)).
Proof.
  assert (A : run con fs (w1 ++ w2) =
              and_then (run con fs w1) (for_each (visit_dir con fs) w2))
    by apply for_each_app.
  split; [exact A|]. split.
  - intros st H. now rewrite A, H.
  - intros st H. pose proof (run_done _ _ _ H) as E.
    rewrite A in H. destruct (run con fs w1) as [st1|st1] eqn:R;
      [|discriminate].
    exists st1. split; [reflexivity|].
    apply run_done in R. subst st st1. cbn [issues stdout opened].
    now rewrite selected_app, !flat_map_app.
Qed.

Lemma X14_witness :
  let fs := fun p : pystr =>
              if endswith (str "A.tsx") p
              then ReadFail (str "denied") else ReadOk (str "<View>x</View>") in
  let w1 := [(str "/app/" ++ [56448%N], @nil pystr, [str "A.tsx"])] in
  let w2 := [(str "/app/src", @nil pystr, [str "B.tsx"])] in
  run console_strict fs w1 =
    Raised (mkState [] [] [str "/app/" ++ [56448%N] ++ str "/A.tsx"]) /\
  run console_strict fs (w1 ++ w2) =
    Raised (mkState [] [] [str "/app/" ++ [56448%N] ++ str "/A.tsx"]).
Proof.
  intros fs w1 w2.
  assert (R : run console_strict fs w1 =
              Raised (mkState [] []
                        [str "/app/" ++ [56448%N] ++ str "/A.tsx"]))
    by (vm_compute; reflexivity).
  split; [exact R|].
  exact (proj1 (proj2 (X14_walk_parts_are_independent console_strict fs
                         w1 w2)) _ R).
Defined.

(** X15: the run reads the file system only at the selected paths: two file
    systems that agree there give the same Issues, output and opened
    files, whatever the other files hold. *)
Theorem X15_only_selected_files_matter (con : console)
    (fs fs' : filesystem) (walk : list entry) :
  (forall fp, In fp (selected walk) -> fs fp = fs' fp) ->
  run con fs walk = run con fs' walk.
Proof.
  intros H. rewrite !run_spec. now apply scan_files_agree.
Qed.

Lemma X15_witness :
  let walk := [(str "/app/node_modules/pkg", @nil pystr, [str "View.tsx"]);
               (str "/app/src", @nil pystr, [str "App.tsx"; str "x.md"])] in
  let fs := fun p : pystr =>
              if endswith (str "App.tsx") p then ReadOk (str "<View>a</View>")
              else ReadOk (str "<View>b</View>") in
  let fs' := fun p : pystr =>
               if endswith (str "App.tsx") p
               then ReadOk (str "<View>a</View>")
               else ReadFail (str "unreadable") in
  run console_strict fs walk = run console_strict fs' walk.
Proof.
  intros walk fs fs'. apply X15_only_selected_files_matter.
  intros fp [<-|[]]. reflexivity.
Defined.

(** X16: the Issues of one file are, in order, one for each region whose
    body keeps an alphanumeric character after the two substitutions, and
    nothing else. *)
Theorem X16_issues_are_the_suspicious_regions (filepath text : pystr)
    (acc : list Issue) :
  scan_content filepath text acc =
  acc ++
  map (fun m => mkIssue filepath (line_num text m) (snippet m))
      (filter (fun m => existsb alnum
                          (sub_empty tag_pattern
                             (sub_empty brace_pattern (group1 m))))
              (finditer view_pattern text)).
Proof.
  unfold scan_content. revert acc.
  induction (finditer view_pattern text) as [|m ms IH]; intros acc.
  - simpl. now rewrite app_nil_r.
  - cbn [fold_left filter]. rewrite IH, residue_decides.
    destruct (existsb alnum _); [|reflexivity].
    cbn [map]. now rewrite <- app_assoc.
Qed.

(** X17: the early [continue] for a blank body and the [strip()] before the
    substitutions do not change what is reported: testing the cleaned,
    untrimmed body alone gives the same list. *)
Theorem X17_early_exit_is_redundant (filepath text : pystr)
    (acc : list Issue) (m : Match) :
  cleaned (view_content m) =
    strip (sub_empty tag_pattern (sub_empty brace_pattern (group1 m))) /\
  process_match filepath text acc m =
    (let cl := strip (sub_empty tag_pattern
                        (sub_empty brace_pattern (group1 m))) in
     if truthy cl && search alnum_pattern cl
     then acc ++ [mkIssue filepath (line_num text m) (snippet m)]
     else acc).
Proof.
  split; [apply cleaned_body|].
  cbv zeta. rewrite <- cleaned_body, process_match_spec.
  unfold suspicious, view_content. rewrite search_alnum.
  now destruct (cleaned (strip (group1 m))).
Qed.
